(** * cpythonwrapper: the C++ kernels and their benchmark wrappers

    A shallow embedding of [cpp_functions.cpp] and of the benchmark
    lambdas of [pybind_wrapper.cpp], with the properties the
    specification states about them.

    Conventions of the embedding:
    - [int] and [long long] values are integers of [Z]; every arithmetic
      operation of the source is followed by the two's-complement
      wrap-around of its C++ type ([wrap32] for [int], [wrap64] for
      [long long]).  Signed overflow is undefined in C++; the wrap is what
      the usual targets execute.
    - [std::vector] is a [list], read with [!!] and written with
      [<[ i := x ]>]; an access outside the vector is [Undef].
    - counted loops [for (int i = a; i <= b; ++i)] run over the list of
      their indices [a .. b], which is what the loop visits for every
      bound below [INT_MAX]; loops with a computed condition or stride
      take fuel.
    - code that can fail returns an [outcome]; exhaustion of memory
      ([std::bad_alloc]) is left out. *)

From Stdlib Require Import ZArith QArith Lia Znumtheory.
From stdpp Require Import base list.
From Equations Require Import Equations.

Local Open Scope Z_scope.

(** ** Machine integers *)

Module Int.

Definition INT_MIN : Z := -2147483648.
Definition INT_MAX : Z := 2147483647.
Definition LLONG_MIN : Z := -9223372036854775808.
Definition LLONG_MAX : Z := 9223372036854775807.

(** Two's-complement reduction to [int]. *)
Definition wrap32 (x : Z) : Z :=
  (x + 2147483648) mod 4294967296 - 2147483648.

(** Two's-complement reduction to [long long]. *)
Definition wrap64 (x : Z) : Z :=
  (x + 9223372036854775808) mod 18446744073709551616 - 9223372036854775808.

(** [static_cast<size_t>] of a signed value (64-bit [size_t]). *)
Definition to_size_t (x : Z) : Z := x mod 18446744073709551616.

(** Largest element count a [std::vector] accepts; any request above it
    throws [std::length_error].  The bound is the one of 8-byte
    elements, the count of a negative [int] converted to [size_t] lies
    far above it for every element type. *)
Definition max_size : Z := 1152921504606846975.

Definition in_int (x : Z) : Prop := INT_MIN <= x <= INT_MAX.
Definition in_llong (x : Z) : Prop := LLONG_MIN <= x <= LLONG_MAX.

End Int.
Import Int.

(** ** Outcomes of fallible code *)

(** What a call can do besides returning: throw a C++ exception (which
    pybind11 turns into a Python exception), run into behaviour the
    language leaves undefined, or exhaust the fuel of the model. *)
Inductive outcome (A : Type) : Type :=
| Done (a : A)
| Throws
| Undef
| NoFuel.
Arguments Done {A} a.
Arguments Throws {A}.
Arguments Undef {A}.
Arguments NoFuel {A}.

#[global] Instance outcome_ret : MRet outcome := fun _ a => Done a.

#[global] Instance outcome_bind : MBind outcome := fun _ _ f x =>
  match x with
  | Done a => f a
  | Throws => Throws
  | Undef => Undef
  | NoFuel => NoFuel
  end.

(** [v[i]] for reading: outside the vector the behaviour is undefined. *)
Definition at_index {A} (v : list A) (i : Z) : outcome A :=
  if (0 <=? i) && (i <? Z.of_nat (length v)) then
    match v !! Z.to_nat i with
    | Some x => Done x
    | None => Undef
    end
  else Undef.

(** [v[i] = x]. *)
Definition set_index {A} (v : list A) (i : Z) (x : A) : outcome (list A) :=
  if (0 <=? i) && (i <? Z.of_nat (length v)) then Done (<[Z.to_nat i := x]> v)
  else Undef.

(** ** Loops *)

(** The indices [lo, lo+1, ..., hi] of a counted loop
    [for (int i = lo; i <= hi; ++i)]; empty when [hi < lo]. *)
Definition indices (lo hi : Z) : list Z :=
  map (fun k => lo + Z.of_nat k) (seq 0 (Z.to_nat (hi + 1 - lo))).

(** A counted loop over a state. *)
Definition for_each {S} (idx : list Z) (body : Z -> S -> S) (s : S) : S :=
  fold_left (fun s i => body i s) idx s.

(** A counted loop whose body can fail. *)
Fixpoint for_eachM {S} (idx : list Z) (body : Z -> S -> outcome S) (s : S)
  : outcome S :=
  match idx with
  | [] => Done s
  | i :: rest => s' ← body i s; for_eachM rest body s'
  end.

(** [std::vector<T> v(count, x)] with an [int] count: the count is
    converted to [size_t], so a negative one asks for more than
    [max_size] elements and the constructor throws. *)
Definition new_vector {A} (count : Z) (x : A) : outcome (list A) :=
  let c := to_size_t count in
  if max_size <? c then Throws else Done (replicate (Z.to_nat c) x).

(** [v.resize(count, x)]: shrinks to the first [count] elements or
    appends copies of [x]; throws above [max_size], the vector intact. *)
Definition resize {A} (v : list A) (count : Z) (x : A) : outcome (list A) :=
  if max_size <? count then Throws
  else Done (take (Z.to_nat count) v
             ++ replicate (Z.to_nat count - length v)%nat x).

(** ** cpp_functions.cpp *)

(** [sum_of_squares]: the accumulator is a [long long], the square is
    taken on [long long] operands.  The list of indices is the loop of
    the source for every n < INT_MAX; at n = INT_MAX the counter of the
    source cannot leave the loop, and the statements below that call
    the kernel keep n below it. *)
Definition sum_of_squares (n : Z) : Z :=
  for_each (indices 1 n) (fun i total => wrap64 (total + wrap64 (i * i))) 0.

(** The wrap never moves a non-negative value upwards: the recursion of
    [fibonacci_recursive] descends. *)
Lemma wrap32_le x : 0 <= x -> wrap32 x <= x.
Proof.
  intros Hx. unfold wrap32.
  pose proof (Z.mod_pos_bound (x + 2147483648) 4294967296).
  destruct (Z_le_gt_dec x 2147483647);
    [rewrite Z.mod_small by lia|]; lia.
Qed.

Opaque wrap32 wrap64.

(** [fibonacci_recursive]: the [int] argument is returned as a
    [long long] when [n <= 1]; the two calls are added in [long long]. *)
Equations? fibonacci_recursive (n : Z) : Z by wf (Z.to_nat n) lt :=
  fibonacci_recursive n with Z_le_gt_dec n 1 := {
    | left _ => n
    | right _ =>
        wrap64 (fibonacci_recursive (wrap32 (n - 1))
                + fibonacci_recursive (wrap32 (n - 2))) }.
Proof.
  - pose proof (wrap32_le (n - 1)). lia.
  - pose proof (wrap32_le (n - 2)). lia.
Qed.

Transparent wrap32 wrap64.

(** The inner loop of [prime_count] over the candidate divisors, with
    its [break]: the value of [is_prime] when the loop is left. *)
Fixpoint trial_division (num : Z) (cands : list Z) : bool :=
  match cands with
  | [] => true
  | i :: rest => if Z.rem num i =? 0 then false else trial_division num rest
  end.

(** [static_cast<int>(std::sqrt(num))]: an [int] is exactly representable
    as a [double] and IEEE-754 square root is correctly rounded, so the
    truncation is the integer square root. *)
Definition int_sqrt (num : Z) : Z := Z.sqrt num.

(** [prime_count]; as for [sum_of_squares] the outer loop is the loop
    of the source for every limit < INT_MAX. *)
Definition prime_count (limit : Z) : Z :=
  if limit <? 2 then 0
  else
    for_each (indices 2 limit)
      (fun num count =>
         let sqrt_num := int_sqrt num in
         let is_prime := trial_division num (indices 2 sqrt_num) in
         if is_prime then wrap32 (count + 1) else count)
      0.

(** Reading and writing [m[i][j]]. *)
Definition get2 {A} (m : list (list A)) (i j : Z) : outcome A :=
  row ← at_index m i; at_index row j.

Definition set2 {A} (m : list (list A)) (i j : Z) (x : A)
  : outcome (list (list A)) :=
  row ← at_index m i; row' ← set_index row j x; set_index m i row'.

(** [std::vector<std::vector<int>> m(size, std::vector<int>(size, x))]. *)
Definition new_matrix (size : Z) (x : Z) : outcome (list (list Z)) :=
  row ← new_vector size x; new_vector size row.

(** The initialisation loops of [matrix_multiplication]. *)
Definition init_matrices (size : Z) (ab : list (list Z) * list (list Z))
  : outcome (list (list Z) * list (list Z)) :=
  for_eachM (indices 0 (size - 1))
    (fun i ab =>
       for_eachM (indices 0 (size - 1))
         (fun j '(matrix_a, matrix_b) =>
            matrix_a ← set2 matrix_a i j (wrap32 (i + j));
            matrix_b ← set2 matrix_b i j (wrap32 (wrap32 (i * j) + 1));
            Done (matrix_a, matrix_b))
         ab)
    ab.

(** The product loops, in the order i, k, j of the source. *)
Definition multiply_loops (size : Z) (matrix_a matrix_b result : list (list Z))
  : outcome (list (list Z)) :=
  for_eachM (indices 0 (size - 1))
    (fun i result =>
       for_eachM (indices 0 (size - 1))
         (fun k result =>
            for_eachM (indices 0 (size - 1))
              (fun j result =>
                 r ← get2 result i j;
                 a ← get2 matrix_a i k;
                 b ← get2 matrix_b k j;
                 set2 result i j (wrap32 (r + wrap32 (a * b))))
              result)
         result)
    result.

Definition matrix_multiplication (size : Z) : outcome (list (list Z)) :=
  matrix_a ← new_matrix size 0;
  matrix_b ← new_matrix size 0;
  '(matrix_a, matrix_b) ← init_matrices size (matrix_a, matrix_b);
  result ← new_matrix size 0;
  multiply_loops size matrix_a matrix_b result.

(** [sum_of_squares_optimized]: every operation is on [long long]; the
    division of C++ truncates towards zero. *)
Definition sum_of_squares_optimized (n : Z) : Z :=
  let ln := n in
  Z.quot (wrap64 (wrap64 (ln * wrap64 (ln + 1)) * wrap64 (wrap64 (2 * ln) + 1))) 6.

(** The inner loop of the sieve:
    [for (int j = i * i; j <= limit; j += i) is_prime[j] = false;]
    entered at [j]. *)
Fixpoint mark_multiples (fuel : nat) (limit i j : Z) (is_prime : list bool)
  : outcome (list bool) :=
  match fuel with
  | O => NoFuel
  | S fuel' =>
      if j <=? limit then
        is_prime ← set_index is_prime j false;
        mark_multiples fuel' limit i (wrap32 (j + i)) is_prime
      else Done is_prime
  end.

(** The outer loop of the sieve: [for (int i = 2; i * i <= limit; ++i)],
    entered at [i]. *)
Fixpoint sieve_loop (inner fuel : nat) (limit i : Z) (is_prime : list bool)
  : outcome (list bool) :=
  match fuel with
  | O => NoFuel
  | S fuel' =>
      if wrap32 (i * i) <=? limit then
        p ← at_index is_prime i;
        is_prime ← (if p : bool
                     then mark_multiples inner limit i (wrap32 (i * i)) is_prime
                     else Done is_prime);
        sieve_loop inner fuel' limit (wrap32 (i + 1)) is_prime
      else Done is_prime
  end.

(** [prime_count_optimized]; [fuel] bounds the iterations of each of the
    two sieve loops. *)
Definition prime_count_optimized (fuel : nat) (limit : Z) : outcome Z :=
  if limit <? 2 then Done 0
  else
    is_prime ← new_vector (wrap32 (limit + 1)) true;
    is_prime ← set_index is_prime 1 false;
    is_prime ← set_index is_prime 0 false;
    is_prime ← sieve_loop fuel fuel limit 2 is_prime;
    for_eachM (indices 2 limit)
      (fun i count =>
         p ← at_index is_prime i;
         Done (if p : bool then wrap32 (count + 1) else count))
      0.

(** [fibonacci_memoized], the [static] vector [memo] threaded through
    the call: the cache before the call is an argument, the cache after
    it comes back with the result.  C++ leaves the order of the two
    recursive calls open; [lr] is true when the left operand of [+] is
    evaluated first.  [fuel] bounds the depth of the recursion. *)
Fixpoint fibonacci_memoized (lr : bool) (fuel : nat) (n : Z) (memo : list Z)
  : outcome (Z * list Z) :=
  match fuel with
  | O => NoFuel
  | S fuel' =>
      memo ← (if Z.of_nat (length memo) <=? to_size_t n
               then resize memo (to_size_t (wrap32 (n + 1))) (-1)
               else Done memo);
      if n <=? 1 then Done (n, memo)
      else
        x ← at_index memo n;
        if negb (x =? -1) then Done (x, memo)
        else
          let first := if lr then wrap32 (n - 1) else wrap32 (n - 2) in
          let second := if lr then wrap32 (n - 2) else wrap32 (n - 1) in
          '(a, memo) ← fibonacci_memoized lr fuel' first memo;
          '(b, memo) ← fibonacci_memoized lr fuel' second memo;
          memo ← set_index memo n (wrap64 (if lr then a + b else b + a));
          x ← at_index memo n;
          Done (x, memo)
  end.

(** ** pybind_wrapper.cpp: the benchmark lambdas *)

(** [duration.count() / (1e9 * iterations)].  The divisor is a [double];
    [1e9 * iterations] is exact for every [int] (it needs at most 52
    bits), so it is zero exactly when the product of integers is.  The
    quotient is kept as the exact rational the [double] result rounds;
    dividing by zero is undefined. *)
Definition avg_divisor (iterations : Z) : Z := 1000000000 * iterations.

Definition avg_time (count iterations : Z) : outcome Q :=
  if avg_divisor iterations =? 0 then Undef
  else Done (Qdiv (inject_Z count) (inject_Z (avg_divisor iterations))).

(** The two readings of [high_resolution_clock], in nanoseconds, are
    inputs of the model: [start] before the loop and [stop] after it. *)
Definition benchmark_sum_of_squares (n iterations : Z) (start stop : Z)
  : outcome (Z * Q) :=
  let result :=
    for_each (indices 0 (iterations - 1)) (fun _ _ => sum_of_squares n) 0 in
  let duration := stop - start in
  avg ← avg_time duration iterations;
  Done (result, avg).

Definition benchmark_prime_count (limit iterations : Z) (start stop : Z)
  : outcome (Z * Q) :=
  let result :=
    for_each (indices 0 (iterations - 1)) (fun _ _ => prime_count limit) 0 in
  let duration := stop - start in
  avg ← avg_time duration iterations;
  Done (result, avg).

Definition benchmark_fibonacci (n iterations : Z) (start stop : Z)
  : outcome (Z * Q) :=
  let result :=
    for_each (indices 0 (iterations - 1)) (fun _ _ => fibonacci_recursive n) 0 in
  let duration := stop - start in
  avg ← avg_time duration iterations;
  Done (result, avg).

(** The matrix wrapper returns [result[0][0]], read after the division. *)
Definition benchmark_matrix_mult (size iterations : Z) (start stop : Z)
  : outcome (Z * Q) :=
  result ← for_eachM (indices 0 (iterations - 1))
             (fun _ _ => matrix_multiplication size) [];
  let duration := stop - start in
  avg ← avg_time duration iterations;
  sample ← get2 result 0 0;
  Done (sample, avg).

(** ** Reference definitions *)

(** The Fibonacci sequence [F 0 = 0], [F 1 = 1], [F (k+2) = F (k+1) + F k],
    computed on pairs of consecutive values. *)
Fixpoint fib_pair (k : nat) : Z * Z :=
  match k with
  | O => (0, 1)
  | S k' => let '(a, b) := fib_pair k' in (b, a + b)
  end.

Definition F (k : nat) : Z := fst (fib_pair k).

(** The generated matrices and the entry (i, j) of their product. *)
Definition A (i j : Z) : Z := i + j.
Definition B (i j : Z) : Z := i * j + 1.

Definition sum_over (idx : list Z) (f : Z -> Z) : Z :=
  foldr (fun k acc => f k + acc) 0 idx.

Definition product_entry (size i j : Z) : Z :=
  sum_over (indices 0 (size - 1)) (fun k => A i k * B k j).

(** The sequence as a [long long] holds it. *)
Definition F64 (k : nat) : Z := wrap64 (F k).

(** The invariant of the memo cache: a slot is unset or holds the
    Fibonacci value of its index. *)
Definition memo_invariant (memo : list Z) : Prop :=
  forall (i : nat) (v : Z), memo !! i = Some v -> v = -1 \/ v = F i.

(** The same with the values reduced to [long long]. *)
Definition memo_invariant64 (memo : list Z) : Prop :=
  forall (i : nat) (v : Z), memo !! i = Some v -> v = -1 \/ v = F64 i.

(** The cache states the process can be in: [memo] is empty at start,
    and every returning call of [fibonacci_memoized] with an argument
    allowed by [P] leaves the next state. *)
Inductive reachable_by (P : Z -> Prop) : list Z -> Prop :=
| reachable_start : reachable_by P []
| reachable_call lr fuel n memo v memo' :
    reachable_by P memo ->
    P n ->
    fibonacci_memoized lr fuel n memo = Done (v, memo') ->
    reachable_by P memo'.

(** Every [int] argument is allowed. *)
Definition reachable : list Z -> Prop := reachable_by in_int.

(** What a call with argument [n] may do to the slots of a cache that
    already has a slot [n]: nothing, or fill an unset slot between 2 and
    [n] with its value. *)
Definition fills (n : Z) (memo memo' : list Z) : Prop :=
  length memo' = length memo
  /\ forall i : nat,
      memo' !! i = memo !! i
      \/ (memo !! i = Some (-1) /\ memo' !! i = Some (F64 i)
          /\ 2 <= Z.of_nat i <= n).

(** Slots up to [n] are unset or hold their value. *)
Definition cached_upto (n : Z) (memo : list Z) : Prop :=
  forall (i : nat) (v : Z),
    Z.of_nat i <= n -> memo !! i = Some v -> v = -1 \/ v = F64 i.

(** The cache after the [resize] of a call with argument [n >= 0]. *)
Definition grown (n : Z) (memo : list Z) : list Z :=
  memo ++ replicate (Z.to_nat (n + 1) - length memo)%nat (-1).

(** [m] is struck out by the divisors below [bound]: it is 0 or 1, or a
    divisor d with 2 <= d < bound and d * d <= m divides it. *)
Definition struck (bound m : Z) : Prop :=
  m < 2 \/ exists d, 2 <= d < bound /\ d * d <= m /\ Z.rem m d = 0.

(** The state of the sieve when the outer loop is at [i]: the flags
    cleared so far are those of the numbers struck out below [i]. *)
Definition sieve_inv (limit i : Z) (is_prime : list bool) : Prop :=
  length is_prime = Z.to_nat (limit + 1)
  /\ forall m : nat,
      Z.of_nat m <= limit -> (is_prime !! m = Some false <-> struck i (Z.of_nat m)).

(** The sum of the first [k] terms of entry (i, j) of the product. *)
Fixpoint partial_sum (i j : Z) (k : nat) : Z :=
  match k with
  | O => 0
  | S k' => partial_sum i j k' + A i (Z.of_nat k') * B (Z.of_nat k') j
  end.

(** An n-by-n vector of vectors, and its entry (i, j). *)
Definition dims (n : nat) (m : list (list Z)) : Prop :=
  length m = n /\ forall (i : nat) row, m !! i = Some row -> length row = n.

Definition entry (m : list (list Z)) (i j : nat) : option Z :=
  row ← m !! i; row !! j.

(** The result matrix when entry (i, j) has received its first
    [c i j] terms. *)
Definition accumulated (n : nat) (c : nat -> nat -> nat) (m : list (list Z))
  : Prop :=
  dims n m
  /\ forall i j : nat,
      (i < n)%nat -> (j < n)%nat ->
      entry m i j = Some (wrap32 (partial_sum (Z.of_nat i) (Z.of_nat j) (c i j))).

(** The two generated matrices when the entries selected by [filled]
    have been assigned. *)
Definition initialised (n : nat) (filled : nat -> nat -> Prop)
    (ab : list (list Z) * list (list Z)) : Prop :=
  dims n ab.1 /\ dims n ab.2
  /\ forall i j : nat,
      (i < n)%nat -> (j < n)%nat -> filled i j ->
      entry ab.1 i j = Some (wrap32 (Z.of_nat i + Z.of_nat j))
      /\ entry ab.2 i j = Some (wrap32 (wrap32 (Z.of_nat i * Z.of_nat j) + 1)).

(** * Properties *)

(** ** Machine integers *)

Section IntFacts.

Lemma wrap32_small x : in_int x -> wrap32 x = x.
Proof.
  unfold in_int, INT_MIN, INT_MAX, wrap32. intros H.
  rewrite Z.mod_small by lia. lia.
Qed.

Lemma wrap64_small x : in_llong x -> wrap64 x = x.
Proof.
  unfold in_llong, LLONG_MIN, LLONG_MAX, wrap64. intros H.
  rewrite Z.mod_small by lia. lia.
Qed.

Lemma wrap32_range x : in_int (wrap32 x).
Proof.
  unfold in_int, INT_MIN, INT_MAX, wrap32.
  pose proof (Z.mod_pos_bound (x + 2147483648) 4294967296). lia.
Qed.

Lemma wrap64_range x : in_llong (wrap64 x).
Proof.
  unfold in_llong, LLONG_MIN, LLONG_MAX, wrap64.
  pose proof (Z.mod_pos_bound (x + 9223372036854775808) 18446744073709551616).
  lia.
Qed.

(** The wrap forgets multiples of the modulus. *)
Lemma wrap32_eqm x y : (x - y) mod 4294967296 = 0 -> wrap32 x = wrap32 y.
Proof.
  intros H. unfold wrap32. f_equal.
  apply Z.mod_divide in H; [|lia]. destruct H as [k Hk].
  replace (x + 2147483648) with (y + 2147483648 + k * 4294967296) by lia.
  apply Z.mod_add. lia.
Qed.

Lemma wrap32_sub_self x : (wrap32 x - x) mod 4294967296 = 0.
Proof.
  unfold wrap32.
  pose proof (Z.div_mod (x + 2147483648) 4294967296).
  replace ((x + 2147483648) mod 4294967296 - 2147483648 - x)
    with ((- ((x + 2147483648) / 4294967296)) * 4294967296) by lia.
  apply Z.mod_mul. lia.
Qed.

Lemma wrap32_add_l x y : wrap32 (wrap32 x + y) = wrap32 (x + y).
Proof.
  apply wrap32_eqm. replace (wrap32 x + y - (x + y)) with (wrap32 x - x) by lia.
  apply wrap32_sub_self.
Qed.

Lemma wrap32_add_r x y : wrap32 (x + wrap32 y) = wrap32 (x + y).
Proof. rewrite (Z.add_comm x), wrap32_add_l. f_equal. lia. Qed.

Lemma wrap32_mul_l x y : wrap32 (wrap32 x * y) = wrap32 (x * y).
Proof.
  apply wrap32_eqm.
  replace (wrap32 x * y - x * y) with ((wrap32 x - x) * y) by lia.
  pose proof (wrap32_sub_self x) as H.
  apply Z.mod_divide in H; [|lia]. destruct H as [k Hk]. rewrite Hk.
  replace (k * 4294967296 * y) with (k * y * 4294967296) by lia.
  apply Z.mod_mul. lia.
Qed.

Lemma wrap32_mul_r x y : wrap32 (x * wrap32 y) = wrap32 (x * y).
Proof. rewrite (Z.mul_comm x), wrap32_mul_l. f_equal. lia. Qed.

Lemma wrap32_idemp x : wrap32 (wrap32 x) = wrap32 x.
Proof. apply wrap32_small, wrap32_range. Qed.

Lemma wrap32_add_compat a a' b b' :
  wrap32 a = wrap32 a' -> wrap32 b = wrap32 b' -> wrap32 (a + b) = wrap32 (a' + b').
Proof.
  intros Ha Hb.
  rewrite <- (wrap32_add_l a), <- (wrap32_add_r _ b), Ha, Hb.
  by rewrite wrap32_add_l, wrap32_add_r.
Qed.

Lemma wrap32_mul_compat a a' b b' :
  wrap32 a = wrap32 a' -> wrap32 b = wrap32 b' -> wrap32 (a * b) = wrap32 (a' * b').
Proof.
  intros Ha Hb.
  rewrite <- (wrap32_mul_l a), <- (wrap32_mul_r _ b), Ha, Hb.
  by rewrite wrap32_mul_l, wrap32_mul_r.
Qed.

Lemma wrap64_eqm x y :
  (x - y) mod 18446744073709551616 = 0 -> wrap64 x = wrap64 y.
Proof.
  intros H. unfold wrap64. f_equal.
  apply Z.mod_divide in H; [|lia]. destruct H as [k Hk].
  replace (x + 9223372036854775808)
    with (y + 9223372036854775808 + k * 18446744073709551616) by lia.
  apply Z.mod_add. lia.
Qed.

Lemma wrap64_sub_self x : (wrap64 x - x) mod 18446744073709551616 = 0.
Proof.
  unfold wrap64.
  pose proof (Z.div_mod (x + 9223372036854775808) 18446744073709551616).
  replace ((x + 9223372036854775808) mod 18446744073709551616
           - 9223372036854775808 - x)
    with ((- ((x + 9223372036854775808) / 18446744073709551616))
          * 18446744073709551616) by lia.
  apply Z.mod_mul. lia.
Qed.

Lemma wrap64_add x y : wrap64 (wrap64 x + wrap64 y) = wrap64 (x + y).
Proof.
  apply wrap64_eqm.
  pose proof (wrap64_sub_self x) as Hx. pose proof (wrap64_sub_self y) as Hy.
  apply Z.mod_divide in Hx; [|lia]. apply Z.mod_divide in Hy; [|lia].
  destruct Hx as [k Hk], Hy as [l Hl].
  replace (wrap64 x + wrap64 y - (x + y))
    with ((k + l) * 18446744073709551616) by lia.
  apply Z.mod_mul. lia.
Qed.

Lemma to_size_t_nonneg x : 0 <= x < 18446744073709551616 -> to_size_t x = x.
Proof. intros H. unfold to_size_t. apply Z.mod_small. lia. Qed.

End IntFacts.

(** ** Counted loops *)

Section Loops.

Lemma indices_nil lo hi : hi < lo -> indices lo hi = [].
Proof.
  intros H. unfold indices. replace (Z.to_nat (hi + 1 - lo)) with 0%nat by lia.
  reflexivity.
Qed.

Lemma indices_snoc lo hi :
  lo <= hi -> indices lo hi = indices lo (hi - 1) ++ [hi].
Proof.
  intros H. unfold indices.
  replace (Z.to_nat (hi + 1 - lo)) with (S (Z.to_nat (hi - 1 + 1 - lo))) by lia.
  rewrite seq_S, map_app. simpl. do 2 f_equal. lia.
Qed.

Lemma indices_cons lo hi :
  lo <= hi -> indices lo hi = lo :: indices (lo + 1) hi.
Proof.
  intros H. unfold indices.
  replace (Z.to_nat (hi + 1 - lo)) with (S (Z.to_nat (hi + 1 - (lo + 1)))) by lia.
  simpl. f_equal; [lia|].
  rewrite <- seq_shift, map_map. apply map_ext. intros k. lia.
Qed.

Lemma indices_length lo hi : length (indices lo hi) = Z.to_nat (hi + 1 - lo).
Proof. unfold indices. by rewrite length_map, length_seq. Qed.

Lemma indices_lookup lo hi (k : nat) :
  (k < Z.to_nat (hi + 1 - lo))%nat -> indices lo hi !! k = Some (lo + Z.of_nat k).
Proof.
  intros H. unfold indices. rewrite list_lookup_fmap.
  rewrite lookup_seq_lt by done. reflexivity.
Qed.

Lemma for_each_snoc {S} (idx : list Z) (i : Z) (body : Z -> S -> S) (s : S) :
  for_each (idx ++ [i]) body s = body i (for_each idx body s).
Proof. unfold for_each. by rewrite fold_left_app. Qed.

(** A loop whose body ignores the state it is given leaves the value of
    its last pass. *)
Lemma for_each_overwrite {S} (idx : list Z) (v s : S) :
  idx <> [] -> for_each idx (fun _ _ => v) s = v.
Proof.
  destruct idx as [|i idx] using rev_ind; [done|]. intros _.
  by rewrite for_each_snoc.
Qed.

(** The invariant rule of a fallible counted loop: [I k s] is the state
    after [k] passes. *)
Lemma for_eachM_invariant {S} (I : nat -> S -> Prop) (idx : list Z)
    (body : Z -> S -> outcome S) (s0 : S) :
  I 0%nat s0 ->
  (forall (k : nat) (i : Z) (s : S),
      idx !! k = Some i -> I k s -> exists s', body i s = Done s' /\ I (Datatypes.S k) s') ->
  exists s', for_eachM idx body s0 = Done s' /\ I (length idx) s'.
Proof.
  revert I s0. induction idx as [|i idx IH]; intros I s0 H0 Hstep.
  - exists s0. done.
  - destruct (Hstep 0%nat i s0 eq_refl H0) as (s1 & Hb & H1).
    destruct (IH (fun k s => I (Datatypes.S k) s) s1 H1) as (s' & Hr & Hs').
    + intros k j s Hk Hs. apply (Hstep (Datatypes.S k) j s Hk Hs).
    + exists s'. simpl. rewrite Hb. done.
Qed.

End Loops.

(** ** Sum of squares *)

Section SumOfSquares.

Lemma sum_of_squares_step n :
  1 <= n ->
  sum_of_squares n = wrap64 (sum_of_squares (n - 1) + wrap64 (n * n)).
Proof.
  intros H. unfold sum_of_squares.
  by rewrite (indices_snoc 1 n), for_each_snoc.
Qed.

(** The iterative sum meets the closed form, six times over, as long as
    the accumulator stays a [long long]. *)
Lemma sum_of_squares_closed (k : nat) :
  Z.of_nat k <= 1500000 ->
  6 * sum_of_squares (Z.of_nat k)
  = Z.of_nat k * (Z.of_nat k + 1) * (2 * Z.of_nat k + 1).
Proof.
  induction k as [|k IH]; intros Hk; [reflexivity|].
  rewrite sum_of_squares_step by lia.
  replace (Z.of_nat (S k) - 1) with (Z.of_nat k) by lia.
  specialize (IH ltac:(lia)).
  set (n := Z.of_nat k) in *. replace (Z.of_nat (S k)) with (n + 1) by lia.
  assert (0 <= n <= 1500000) as Hn by lia.
  assert (0 <= n * (n + 1) <= 1500000 * 1500001) as H1 by nia.
  assert (0 <= n * (n + 1) * (2 * n + 1) <= 1500000 * 1500001 * 3000001) as H2
    by (split; [|apply Z.mul_le_mono_nonneg]; lia).
  assert (0 <= (n + 1) * (n + 1) <= 1500001 * 1500001) as H3 by nia.
  rewrite (wrap64_small ((n + 1) * (n + 1)))
    by (unfold in_llong, LLONG_MIN, LLONG_MAX; lia).
  rewrite wrap64_small by (unfold in_llong, LLONG_MIN, LLONG_MAX; lia).
  lia.
Qed.

Lemma sum_of_squares_optimized_closed n :
  0 <= n <= 1500000 ->
  sum_of_squares_optimized n = n * (n + 1) * (2 * n + 1) / 6.
Proof.
  intros Hn. unfold sum_of_squares_optimized.
  assert (0 <= n * (n + 1) <= 1500000 * 1500001) as H1 by nia.
  assert (0 <= n * (n + 1) * (2 * n + 1) <= 1500000 * 1500001 * 3000001) as H2
    by (split; [|apply Z.mul_le_mono_nonneg]; lia).
  rewrite (wrap64_small (n + 1)) by (unfold in_llong, LLONG_MIN, LLONG_MAX; lia).
  rewrite (wrap64_small (2 * n)) by (unfold in_llong, LLONG_MIN, LLONG_MAX; lia).
  rewrite (wrap64_small (2 * n + 1)) by (unfold in_llong, LLONG_MIN, LLONG_MAX; lia).
  rewrite (wrap64_small (n * (n + 1))) by (unfold in_llong, LLONG_MIN, LLONG_MAX; lia).
  rewrite wrap64_small by (unfold in_llong, LLONG_MIN, LLONG_MAX; lia).
  apply Z.quot_div_nonneg; lia.
Qed.

(** C1: for every n in [0, 10000] the iterative [sum_of_squares] and the
    closed form of [sum_of_squares_optimized] return the same 64-bit
    value, which is n(n+1)(2n+1)/6, and no product of the closed form
    leaves the range of [long long]. *)
Theorem sum_of_squares_optimized_agrees (n : Z) :
  0 <= n <= 10000 ->
  sum_of_squares n = sum_of_squares_optimized n
  /\ sum_of_squares_optimized n = n * (n + 1) * (2 * n + 1) / 6
  /\ in_llong (n * (n + 1) * (2 * n + 1)).
Proof.
  intros Hn.
  pose proof (sum_of_squares_closed (Z.to_nat n)) as Hc.
  rewrite Z2Nat.id in Hc by lia. specialize (Hc ltac:(lia)).
  rewrite sum_of_squares_optimized_closed by lia.
  split; [|split].
  - rewrite <- Hc. by rewrite Z.mul_comm, Z.div_mul.
  - reflexivity.
  - assert (0 <= n * (n + 1) <= 10000 * 10001) by nia.
    unfold in_llong, LLONG_MIN, LLONG_MAX. nia.
Qed.

Lemma sum_of_squares_optimized_agrees_witness :
  0 <= 100 <= 10000 /\ sum_of_squares 100 = sum_of_squares_optimized 100.
Proof.
  split; [lia|]. apply (sum_of_squares_optimized_agrees 100). lia.
Defined.

End SumOfSquares.

(** ** The Fibonacci sequence and [fibonacci_recursive] *)

Section Fibonacci.

Lemma F_0 : F 0 = 0.
Proof. reflexivity. Qed.

Lemma F_1 : F 1 = 1.
Proof. reflexivity. Qed.

Lemma F_rec (k : nat) : F (S (S k)) = F (S k) + F k.
Proof.
  unfold F. simpl. destruct (fib_pair k) as [a b]. simpl. lia.
Qed.

Lemma fib_pair_ordered (k : nat) : 0 <= fst (fib_pair k) <= snd (fib_pair k).
Proof.
  induction k as [|k IH]; simpl; [lia|].
  destruct (fib_pair k) as [a b]. simpl in *. lia.
Qed.

Lemma F_nonneg (k : nat) : 0 <= F k.
Proof. apply fib_pair_ordered. Qed.

Lemma F_mono_S (k : nat) : F k <= F (S k).
Proof.
  pose proof (fib_pair_ordered k) as H. unfold F. simpl.
  destruct (fib_pair k) as [a b]. simpl in *. lia.
Qed.

Lemma F_mono (j k : nat) : (j <= k)%nat -> F j <= F k.
Proof.
  induction 1 as [|k _ IH]; [lia|]. pose proof (F_mono_S k). lia.
Qed.

(** [F 92] is the last value of the sequence a [long long] holds. *)
Lemma F_in_llong (k : nat) : (k <= 92)%nat -> in_llong (F k).
Proof.
  intros Hk. pose proof (F_nonneg k). pose proof (F_mono k 92 Hk) as Hm.
  change (F 92) with 7540113804746346429 in Hm.
  unfold in_llong, LLONG_MIN, LLONG_MAX. lia.
Qed.

Lemma F_93_overflows : LLONG_MAX < F 93.
Proof. reflexivity. Qed.

(** The body of [fibonacci_recursive], as the source has it. *)
Lemma fibonacci_recursive_body (n : Z) :
  fibonacci_recursive n =
  if decide (n <= 1) then n
  else wrap64 (fibonacci_recursive (wrap32 (n - 1))
               + fibonacci_recursive (wrap32 (n - 2))).
Proof.
  rewrite fibonacci_recursive_equation_1.
  destruct (Z_le_gt_dec n 1); case_decide; try lia; reflexivity.
Qed.

(** On an [int] argument the recursion computes the sequence in
    [long long] arithmetic. *)
Lemma fibonacci_recursive_wrapped (k : nat) :
  Z.of_nat k <= INT_MAX ->
  fibonacci_recursive (Z.of_nat k) = wrap64 (F k).
Proof.
  unfold INT_MAX.
  enough (H : (Z.of_nat k <= 2147483647 ->
               fibonacci_recursive (Z.of_nat k) = wrap64 (F k))
              /\ (Z.of_nat (S k) <= 2147483647 ->
                  fibonacci_recursive (Z.of_nat (S k)) = wrap64 (F (S k))))
    by apply H.
  induction k as [|k [IH0 IH1]].
  - split; intros _; rewrite fibonacci_recursive_body; reflexivity.
  - split; [exact IH1|]. intros Hk.
    rewrite fibonacci_recursive_body. case_decide; [lia|].
    rewrite !wrap32_small by (unfold in_int, INT_MIN, INT_MAX; lia).
    replace (Z.of_nat (S (S k)) - 1) with (Z.of_nat (S k)) by lia.
    replace (Z.of_nat (S (S k)) - 2) with (Z.of_nat k) by lia.
    rewrite IH0, IH1 by lia. by rewrite wrap64_add, F_rec.
Qed.

Lemma fibonacci_recursive_exact (k : nat) :
  (k <= 92)%nat -> fibonacci_recursive (Z.of_nat k) = F k.
Proof.
  intros Hk. rewrite fibonacci_recursive_wrapped by (unfold INT_MAX; lia).
  by apply wrap64_small, F_in_llong.
Qed.

(** C10: [fibonacci_recursive] returns its argument for every n <= 1,
    negative arguments included: the base case is taken at once, nothing
    fails and there is no recursive call.  (The function is defined for
    every integer: its recursion is well founded.) *)
Theorem fibonacci_recursive_base (n : Z) :
  n <= 1 -> fibonacci_recursive n = n.
Proof.
  intros Hn. rewrite fibonacci_recursive_body. by case_decide.
Qed.

Lemma fibonacci_recursive_base_witness :
  -5 <= 1 /\ fibonacci_recursive (-5) = -5.
Proof.
  split; [lia|]. apply (fibonacci_recursive_base (-5)). lia.
Defined.

End Fibonacci.

(** ** The memo cache of [fibonacci_memoized] *)

Section Memo.

Lemma obind_Done {A B} (a : A) (f : A -> outcome B) : (Done a ≫= f) = f a.
Proof. reflexivity. Qed.

Lemma fibonacci_memoized_S lr fuel n memo :
  fibonacci_memoized lr (S fuel) n memo =
  (memo ← (if Z.of_nat (length memo) <=? to_size_t n
            then resize memo (to_size_t (wrap32 (n + 1))) (-1)
            else Done memo);
   if n <=? 1 then Done (n, memo)
   else
     x ← at_index memo n;
     if negb (x =? -1) then Done (x, memo)
     else
       let first := if lr then wrap32 (n - 1) else wrap32 (n - 2) in
       let second := if lr then wrap32 (n - 2) else wrap32 (n - 1) in
       '(a, memo) ← fibonacci_memoized lr fuel first memo;
       '(b, memo) ← fibonacci_memoized lr fuel second memo;
       memo ← set_index memo n (wrap64 (if lr then a + b else b + a));
       x ← at_index memo n;
       Done (x, memo)).
Proof. reflexivity. Qed.

(** More fuel does not change the result of a call that returned. *)
Lemma fibonacci_memoized_fuel_S lr fuel n memo r :
  fibonacci_memoized lr fuel n memo = Done r ->
  fibonacci_memoized lr (S fuel) n memo = Done r.
Proof.
  revert n memo r. induction fuel as [|fuel IH]; intros n memo r H; [done|].
  rewrite fibonacci_memoized_S in H. rewrite fibonacci_memoized_S.
  destruct (if Z.of_nat (length memo) <=? to_size_t n
            then resize memo (to_size_t (wrap32 (n + 1))) (-1)
            else Done memo) as [m1| | |]; try done.
  rewrite obind_Done in *.
  destruct (n <=? 1); [done|].
  destruct (at_index m1 n) as [x| | |]; try done.
  rewrite obind_Done in *.
  destruct (negb (x =? -1)); [done|]. cbv zeta in *.
  destruct (fibonacci_memoized lr fuel _ m1) as [[a m2]| | |] eqn:E1; try done.
  rewrite (IH _ _ _ E1). rewrite obind_Done in *.
  destruct (fibonacci_memoized lr fuel _ m2) as [[b m3]| | |] eqn:E2; try done.
  rewrite (IH _ _ _ E2). exact H.
Qed.

Lemma fibonacci_memoized_fuel_le lr fuel fuel' n memo r :
  (fuel <= fuel')%nat ->
  fibonacci_memoized lr fuel n memo = Done r ->
  fibonacci_memoized lr fuel' n memo = Done r.
Proof.
  induction 1 as [|fuel' _ IH]; [done|].
  intros H. by apply fibonacci_memoized_fuel_S, IH.
Qed.

Lemma at_index_lookup {A} (v : list A) (i : Z) (x : A) :
  0 <= i -> v !! Z.to_nat i = Some x -> at_index v i = Done x.
Proof.
  intros Hi Hx. unfold at_index. pose proof (lookup_lt_Some _ _ _ Hx).
  rewrite Hx.
  destruct (0 <=? i) eqn:E1; [|lia]. destruct (i <? Z.of_nat (length v)) eqn:E2; [done|lia].
Qed.

Lemma set_index_Done {A} (v : list A) (i : Z) (x : A) :
  0 <= i < Z.of_nat (length v) ->
  set_index v i x = Done (<[Z.to_nat i := x]> v).
Proof.
  intros Hi. unfold set_index.
  destruct (0 <=? i) eqn:E1; [|lia]. destruct (i <? Z.of_nat (length v)) eqn:E2; [done|lia].
Qed.

Lemma fills_refl n memo : fills n memo memo.
Proof. split; [done|]. intros i. by left. Qed.

Lemma fills_trans n1 n2 n m1 m2 m3 :
  n1 <= n -> n2 <= n -> fills n1 m1 m2 -> fills n2 m2 m3 -> fills n m1 m3.
Proof.
  intros Hn1 Hn2 [Hl12 H12] [Hl23 H23]. split; [congruence|]. intros i.
  destruct (H12 i) as [E12|(Ha & Hb & Hc)], (H23 i) as [E23|(Ha' & Hb' & Hc')].
  - left. congruence.
  - right. rewrite <- E12. split_and!; [done|done|lia|lia].
  - right. rewrite E23. split_and!; [done|done|lia|lia].
  - right. split_and!; [done|done|lia|lia].
Qed.

Lemma fills_cached_upto n k m1 m2 :
  fills n m1 m2 -> cached_upto k m1 -> cached_upto k m2.
Proof.
  intros [_ H] Hc i v Hi Hv. destruct (H i) as [E|(_ & Hb & _)].
  - rewrite E in Hv. by apply (Hc i).
  - right. congruence.
Qed.

(** A call whose slot exists: it returns the value of the sequence and
    only fills unset slots. *)
Lemma fibonacci_memoized_inner lr (fuel : nat) :
  forall (n : Z) (memo : list Z),
    0 <= n <= INT_MAX ->
    n < Z.of_nat fuel ->
    n < Z.of_nat (length memo) ->
    cached_upto n memo ->
    exists memo',
      fibonacci_memoized lr fuel n memo = Done (F64 (Z.to_nat n), memo')
      /\ fills n memo memo'.
Proof.
  unfold INT_MAX.
  induction fuel as [|fuel IH]; intros n memo Hn Hfuel Hlen Hc; [lia|].
  rewrite fibonacci_memoized_S.
  rewrite to_size_t_nonneg by lia.
  destruct (Z.of_nat (length memo) <=? n) eqn:E; [lia|]. clear E.
  rewrite obind_Done.
  destruct (n <=? 1) eqn:E1.
  { exists memo. split; [|apply fills_refl].
    assert (n = 0 \/ n = 1) as [-> | ->] by lia; reflexivity. }
  destruct (lookup_lt_is_Some_2 memo (Z.to_nat n)) as [x Hx]; [lia|].
  rewrite (at_index_lookup _ _ x) by (done || lia). rewrite obind_Done.
  destruct (x =? -1) eqn:Ex; simpl negb; cbv iota.
  2: { exists memo. split; [|apply fills_refl].
       destruct (Hc (Z.to_nat n) x) as [?| ->]; [lia|done|lia|done]. }
  assert (x = -1) as -> by lia. cbv zeta.
  rewrite !wrap32_small by (unfold in_int, INT_MIN, INT_MAX; lia).
  assert (forall k m, (k = n - 1 \/ k = n - 2) -> fills n memo m ->
            exists m', fibonacci_memoized lr fuel k m = Done (F64 (Z.to_nat k), m')
                       /\ fills n memo m') as Hcall.
  { intros k m Hk Hm. destruct (IH k m) as (m' & Hr & Hf); [lia|lia| | |].
    - destruct Hm as [Hl _]. lia.
    - intros i v Hi. apply (fills_cached_upto n n memo m Hm Hc). lia.
    - exists m'. split; [done|]. apply (fills_trans n k n memo m m'); (done || lia). }
  assert (F64 (Z.to_nat n)
          = wrap64 (F64 (Z.to_nat (n - 1)) + F64 (Z.to_nat (n - 2)))) as HF.
  { unfold F64. rewrite wrap64_add.
    replace (Z.to_nat (n - 1)) with (S (Z.to_nat (n - 2))) by lia.
    replace (Z.to_nat n) with (S (S (Z.to_nat (n - 2)))) by lia.
    by rewrite F_rec. }
  assert (exists a m2 b m3,
            fibonacci_memoized lr fuel (if lr then n - 1 else n - 2) memo
            = Done (a, m2)
            /\ fibonacci_memoized lr fuel (if lr then n - 2 else n - 1) m2
               = Done (b, m3)
            /\ fills n memo m3
            /\ wrap64 (if lr then a + b else b + a) = F64 (Z.to_nat n))
    as (a & m2 & b & m3 & Hr2 & Hr3 & Hf3 & Hsum).
  { destruct lr.
    - destruct (Hcall (n - 1) memo) as (m2 & Hr2 & Hf2); [lia|apply fills_refl|].
      destruct (Hcall (n - 2) m2) as (m3 & Hr3 & Hf3); [lia|done|].
      by exists (F64 (Z.to_nat (n - 1))), m2, (F64 (Z.to_nat (n - 2))), m3.
    - destruct (Hcall (n - 2) memo) as (m2 & Hr2 & Hf2); [lia|apply fills_refl|].
      destruct (Hcall (n - 1) m2) as (m3 & Hr3 & Hf3); [lia|done|].
      by exists (F64 (Z.to_nat (n - 2))), m2, (F64 (Z.to_nat (n - 1))), m3. }
  rewrite Hr2, obind_Done. cbv beta iota.
  rewrite Hr3, obind_Done. cbv beta iota.
  rewrite Hsum. destruct Hf3 as [Hl3 Hp3].
  rewrite set_index_Done by lia. rewrite obind_Done.
  rewrite (at_index_lookup _ _ (F64 (Z.to_nat n)))
    by (lia || (apply list_lookup_insert_eq; lia)).
  rewrite obind_Done. eexists. split; [reflexivity|].
  split; [by rewrite length_insert|]. intros i.
  destruct (decide (i = Z.to_nat n)) as [->|Hne].
  - right. rewrite list_lookup_insert_eq by lia. split_and!; [done|done|lia|lia].
  - rewrite list_lookup_insert_ne by done. apply Hp3.
Qed.

Lemma fibonacci_memoized_deterministic lr fuel fuel' n memo r r' :
  fibonacci_memoized lr fuel n memo = Done r ->
  fibonacci_memoized lr fuel' n memo = Done r' ->
  r = r'.
Proof.
  intros H H'.
  apply (fibonacci_memoized_fuel_le _ _ (Nat.max fuel fuel')) in H; [|lia].
  apply (fibonacci_memoized_fuel_le _ _ (Nat.max fuel fuel')) in H'; [|lia].
  congruence.
Qed.

Lemma grown_length n memo :
  length (grown n memo) = Nat.max (length memo) (Z.to_nat (n + 1)).
Proof. unfold grown. rewrite length_app, length_replicate. lia. Qed.

Lemma grown_id n memo : n < Z.of_nat (length memo) -> grown n memo = memo.
Proof.
  intros H. unfold grown.
  replace (Z.to_nat (n + 1) - length memo)%nat with 0%nat by lia.
  apply app_nil_r.
Qed.

Lemma grown_lookup n memo (i : nat) v :
  grown n memo !! i = Some v ->
  memo !! i = Some v \/ (memo !! i = None /\ v = -1).
Proof.
  unfold grown. rewrite lookup_app_Some. intros [H|[Hl H]]; [by left|].
  right. apply lookup_replicate in H as [-> _].
  split; [by apply lookup_ge_None|done].
Qed.

(** The [resize] of a call with a non-negative argument appends unset
    slots up to index [n]. *)
Lemma resize_grows n memo :
  0 <= n < INT_MAX ->
  Z.of_nat (length memo) <= n ->
  resize memo (to_size_t (wrap32 (n + 1))) (-1) = Done (grown n memo).
Proof.
  unfold INT_MAX. intros Hn Hl. unfold resize.
  rewrite wrap32_small by (unfold in_int, INT_MIN, INT_MAX; lia).
  rewrite to_size_t_nonneg by lia.
  destruct (max_size <? n + 1) eqn:E; [unfold max_size in E; lia|].
  rewrite take_ge by lia. reflexivity.
Qed.

(** A call first makes sure that slot [n] exists. *)
Lemma fibonacci_memoized_grown lr fuel n memo :
  0 <= n < INT_MAX ->
  fibonacci_memoized lr fuel n memo = fibonacci_memoized lr fuel n (grown n memo).
Proof.
  intros Hn. destruct (Z_lt_le_dec n (Z.of_nat (length memo))) as [Hl|Hl].
  { by rewrite grown_id. }
  destruct fuel as [|fuel]; [done|]. unfold INT_MAX in Hn.
  rewrite !fibonacci_memoized_S. rewrite to_size_t_nonneg by lia.
  destruct (Z.of_nat (length memo) <=? n) eqn:E; [|lia].
  rewrite resize_grows by (unfold INT_MAX; lia).
  destruct (Z.of_nat (length (grown n memo)) <=? n) eqn:E'; [|done].
  apply Z.leb_le in E'. rewrite grown_length in E'. lia.
Qed.

(** A call with a non-negative argument returns, with the value of the
    sequence, once slots up to [n] are sound. *)
Lemma fibonacci_memoized_returns lr fuel n memo :
  0 <= n < INT_MAX ->
  n < Z.of_nat fuel ->
  cached_upto n memo ->
  exists memo',
    fibonacci_memoized lr fuel n memo = Done (F64 (Z.to_nat n), memo')
    /\ fills n (grown n memo) memo'.
Proof.
  intros Hn Hfuel Hc. rewrite fibonacci_memoized_grown by done.
  apply fibonacci_memoized_inner; [lia|done| |].
  - rewrite grown_length. lia.
  - intros i v Hi Hv. apply grown_lookup in Hv as [Hv|[_ ->]]; [|by left].
    by apply (Hc i).
Qed.

Lemma memo_invariant64_resize memo count memo' :
  memo_invariant64 memo ->
  resize memo count (-1) = Done memo' ->
  memo_invariant64 memo'.
Proof.
  unfold resize. intros Hm H. destruct (max_size <? count); [done|].
  injection H as <-. intros i v. rewrite lookup_app_Some.
  intros [Hv|[_ Hv]].
  - apply lookup_take_Some in Hv as [Hv _]. by apply (Hm i).
  - apply lookup_replicate in Hv as [-> _]. by left.
Qed.

Lemma fills_invariant64 n m1 m2 :
  fills n m1 m2 -> memo_invariant64 m1 -> memo_invariant64 m2.
Proof.
  intros [_ H] Hm i v Hv. destruct (H i) as [E|(_ & Hb & _)].
  - rewrite E in Hv. by apply (Hm i).
  - right. congruence.
Qed.

(** Every returning call keeps the slots sound, whatever its argument. *)
Lemma memo_invariant64_call lr fuel n memo v memo' :
  in_int n ->
  memo_invariant64 memo ->
  fibonacci_memoized lr fuel n memo = Done (v, memo') ->
  memo_invariant64 memo'.
Proof.
  unfold in_int, INT_MIN, INT_MAX. intros Hn Hm H.
  destruct (Z_le_gt_dec n 1) as [Hle|Hgt].
  { destruct fuel as [|fuel]; [done|]. rewrite fibonacci_memoized_S in H.
    destruct (Z.of_nat (length memo) <=? to_size_t n).
    - destruct (resize memo _ (-1)) as [m1| | |] eqn:Er; try done.
      rewrite obind_Done in H. destruct (n <=? 1) eqn:E; [|lia].
      injection H as _ <-. by eapply memo_invariant64_resize.
    - rewrite obind_Done in H. destruct (n <=? 1) eqn:E; [|lia].
      by injection H as _ <-. }
  assert (cached_upto n memo) as Hc by (intros i x _ Hx; by apply (Hm i)).
  destruct (Z_lt_le_dec n (Z.of_nat (length memo))) as [Hl|Hl].
  - destruct (fibonacci_memoized_inner lr (S (Z.to_nat n)) n memo)
      as (m' & Hr & Hf); [unfold INT_MAX; lia|lia|done|done|].
    pose proof (fibonacci_memoized_deterministic _ _ _ _ _ _ _ H Hr) as E.
    injection E as _ ->. by eapply fills_invariant64.
  - destruct (decide (n = 2147483647)) as [->|Hne].
    + destruct fuel as [|fuel]; [done|]. rewrite fibonacci_memoized_S in H.
      rewrite to_size_t_nonneg in H by lia.
      destruct (Z.of_nat (length memo) <=? 2147483647) eqn:E; [|lia].
      by vm_compute in H.
    + destruct (fibonacci_memoized_returns lr (S (Z.to_nat n)) n memo)
        as (m' & Hr & Hf); [unfold INT_MAX; lia|lia|done|].
      pose proof (fibonacci_memoized_deterministic _ _ _ _ _ _ _ H Hr) as E.
      injection E as _ ->. eapply fills_invariant64; [done|].
      intros i x Hx. apply grown_lookup in Hx as [Hx|[_ ->]]; [|by left].
      by apply (Hm i).
Qed.

Lemma reachable_invariant64 memo : reachable memo -> memo_invariant64 memo.
Proof.
  induction 1 as [|lr fuel n memo v memo' _ IH Hn Hcall].
  - intros i v Hv. by rewrite lookup_nil in Hv.
  - by eapply memo_invariant64_call.
Qed.

(** C3: for every n in [0, 30], from every reachable state of the cache
    and with either order of the two recursive calls,
    [fibonacci_memoized] returns what [fibonacci_recursive] returns, and
    that is the Fibonacci number [F n], where [F 0 = 0], [F 1 = 1] and
    [F (k + 2) = F (k + 1) + F k]. *)
Theorem fibonacci_memoized_agrees lr fuel (n : Z) (memo : list Z) :
  0 <= n <= 30 ->
  reachable memo ->
  n < Z.of_nat fuel ->
  (exists memo',
      fibonacci_memoized lr fuel n memo = Done (fibonacci_recursive n, memo')
      /\ fibonacci_recursive n = F (Z.to_nat n))
  /\ F 0 = 0 /\ F 1 = 1 /\ (forall k : nat, F (S (S k)) = F (S k) + F k).
Proof.
  intros Hn Hreach Hfuel.
  split; [|split_and!; [reflexivity|reflexivity|apply F_rec]].
  pose proof (fibonacci_recursive_exact (Z.to_nat n) ltac:(lia)) as Hrec.
  rewrite Z2Nat.id in Hrec by lia.
  destruct (fibonacci_memoized_returns lr fuel n memo) as (memo' & Hr & _).
  - unfold INT_MAX. lia.
  - done.
  - intros i v _ Hv. by apply (reachable_invariant64 memo Hreach i).
  - exists memo'. split; [|done]. rewrite Hr, Hrec. unfold F64.
    rewrite wrap64_small; [done|]. apply F_in_llong. lia.
Qed.

Lemma fibonacci_memoized_agrees_witness :
  exists memo',
    fibonacci_memoized true 11 10 [] = Done (fibonacci_recursive 10, memo')
    /\ fibonacci_recursive 10 = F 10.
Proof.
  destruct (fibonacci_memoized_agrees true 11 10 []) as [H _];
    [lia | apply reachable_start | lia | exact H].
Defined.

(** One call on a cache whose slots are unset or exact, with an argument
    whose value a [long long] holds. *)
Lemma memo_invariant_call lr fuel n memo :
  0 <= n <= 92 ->
  n < Z.of_nat fuel ->
  memo_invariant memo ->
  exists memo',
    fibonacci_memoized lr fuel n memo = Done (F (Z.to_nat n), memo')
    /\ memo_invariant memo'
    /\ (forall (i : nat) v, memo !! i = Some v -> v <> -1 -> memo' !! i = Some v)
    /\ length memo' = Nat.max (length memo) (Z.to_nat (n + 1)).
Proof.
  intros Hn Hfuel Hm.
  assert (forall i : nat, Z.of_nat i <= n -> F64 i = F i) as HF.
  { intros i Hi. apply wrap64_small, F_in_llong. lia. }
  destruct (fibonacci_memoized_returns lr fuel n memo) as (memo' & Hr & Hl & Hp).
  - unfold INT_MAX. lia.
  - done.
  - intros i v Hi Hv. rewrite HF by done. by apply (Hm i).
  - exists memo'. rewrite HF in Hr by lia. split_and!; [done| | |].
    + intros i v Hv. destruct (Hp i) as [E|(_ & Hb & Hc)].
      * rewrite E in Hv. apply grown_lookup in Hv as [Hv|[_ ->]]; [|by left].
        by apply (Hm i).
      * right. rewrite <- HF by lia. congruence.
    + intros i v Hv Hne.
      assert (grown n memo !! i = Some v) as Hg.
      { unfold grown. rewrite lookup_app_l; [done|]. by eapply lookup_lt_Some. }
      destruct (Hp i) as [E|(Ha & _)]; congruence.
    + by rewrite Hl, grown_length.
Qed.

Lemma reachable_invariant memo :
  reachable_by (fun k => 0 <= k <= 92) memo -> memo_invariant memo.
Proof.
  induction 1 as [|lr fuel n memo v memo' _ IH Hn Hcall].
  - intros i v Hv. by rewrite lookup_nil in Hv.
  - destruct (memo_invariant_call lr (S (Z.to_nat n)) n memo)
      as (m' & Hr & Hinv & _); [done|lia|done|].
    pose proof (fibonacci_memoized_deterministic _ _ _ _ _ _ _ Hcall Hr) as E.
    by injection E as _ ->.
Qed.

(** C4, as the code has it: from every cache state reachable through
    returning calls with any [int] argument, a call with
    0 <= n < INT_MAX returns, and leaves a cache in which every slot is
    the sentinel -1 or the Fibonacci value of its index reduced to a
    [long long], hence exactly F(i) for every i <= 92; the value
    returned is that of slot n, exactly F(n) for n <= 92; a slot that
    was set keeps its value; the cache only grows, to the larger of its
    length and n + 1.  When the calls so far and this one all have
    arguments in 0..92, every slot is -1 or exactly F(i). *)
Theorem memo_invariant_preserved lr fuel (n : Z) (memo : list Z) :
  reachable memo ->
  0 <= n < INT_MAX ->
  n < Z.of_nat fuel ->
  exists memo',
    fibonacci_memoized lr fuel n memo = Done (F64 (Z.to_nat n), memo')
    /\ (n <= 92 -> F64 (Z.to_nat n) = F (Z.to_nat n))
    /\ memo_invariant64 memo'
    /\ (forall (i : nat) v,
          (i <= 92)%nat -> memo' !! i = Some v -> v = -1 \/ v = F i)
    /\ (forall (i : nat) v, memo !! i = Some v -> v <> -1 -> memo' !! i = Some v)
    /\ length memo' = Nat.max (length memo) (Z.to_nat (n + 1))
    /\ (reachable_by (fun k => 0 <= k <= 92) memo -> n <= 92 ->
        memo_invariant memo').
Proof.
  intros Hreach Hn Hfuel.
  pose proof (reachable_invariant64 memo Hreach) as Hinv.
  destruct (fibonacci_memoized_returns lr fuel n memo)
    as (memo' & Hr & Hf); [done|done| |].
  { intros i v _ Hv. by apply (Hinv i). }
  assert (memo_invariant64 memo') as Hinv'
    by (eapply memo_invariant64_call; [|exact Hinv|exact Hr];
        unfold in_int, INT_MIN, INT_MAX in *; lia).
  exists memo'. split_and!; [done| |done| | | |].
  - intros Hn92. apply wrap64_small, F_in_llong. lia.
  - intros i v Hi Hv. destruct (Hinv' i v Hv) as [->| ->]; [by left|right].
    by apply wrap64_small, F_in_llong.
  - intros i v Hv Hne. destruct Hf as [_ Hp].
    assert (grown n memo !! i = Some v) as Hg.
    { unfold grown. rewrite lookup_app_l; [done|]. by eapply lookup_lt_Some. }
    destruct (Hp i) as [E|(Ha & _)]; congruence.
  - destruct Hf as [Hl _]. by rewrite Hl, grown_length.
  - intros Hreach92 Hn92.
    destruct (memo_invariant_call lr fuel n memo)
      as (m' & Hr' & Hexact & _); [lia|done|by apply reachable_invariant|].
    rewrite Hr in Hr'. by injection Hr' as _ ->.
Qed.

Lemma memo_invariant_preserved_witness :
  exists memo',
    fibonacci_memoized true 101 100 [-1; -1; 1; 2; 3; 5]
    = Done (F64 (Z.to_nat 100), memo')
    /\ memo_invariant64 memo'
    /\ (forall (i : nat) v,
          [-1; -1; 1; 2; 3; 5] !! i = Some v -> v <> -1 -> memo' !! i = Some v)
    /\ length memo' = Nat.max 6 (Z.to_nat (100 + 1)).
Proof.
  destruct (memo_invariant_preserved true 101 100 [-1; -1; 1; 2; 3; 5])
    as (memo' & Hr & _ & Hinv & _ & Hkeep & Hlen & _).
  - apply (reachable_call _ true 6 5 [] 5);
      [apply reachable_start|unfold in_int, INT_MIN, INT_MAX; lia|reflexivity].
  - unfold INT_MAX. lia.
  - lia.
  - exists memo'. split; [exact Hr|]. split; [exact Hinv|].
    split; [exact Hkeep|exact Hlen].
Defined.

(** The invariant does not survive every call.  From the empty cache,
    [fibonacci_memoized(93)] stores a value that is neither -1 nor
    [F 93], which no [long long] holds; and [fibonacci_memoized(-1)]
    resizes the cache to zero elements, so the slot that
    [fibonacci_memoized(5)] had set is gone. *)
Lemma memo_invariant_counterexample :
  (exists v memo',
      reachable [] /\ in_int 93
      /\ fibonacci_memoized true 94 93 [] = Done (v, memo')
      /\ memo' !! 93%nat = Some v /\ v <> -1 /\ v <> F 93)
  /\ (exists memo memo',
       reachable memo /\ in_int (-1)
       /\ memo !! 5%nat = Some 5
       /\ fibonacci_memoized true 1 (-1) memo = Done (-1, memo')
       /\ memo' !! 5%nat = None).
Proof.
  split.
  - eexists _, _. split; [apply reachable_start|]. split; [by vm_compute|].
    split; [vm_compute; reflexivity|]. by vm_compute.
  - exists [-1; -1; 1; 2; 3; 5], [].
    split.
    { apply (reachable_call _ true 6 5 [] 5);
        [apply reachable_start|by vm_compute|reflexivity]. }
    split; [by vm_compute|]. by vm_compute.
Qed.

(** C5, as the code has it: for n = 0 and n = 1 the call returns n, and
    reads and writes no slot; but the [resize] comes before the test
    [n <= 1], so a cache shorter than n + 1 is extended with -1 sentinels
    up to index n.  The slots it had are kept, and a cache that already
    has a slot n is returned as it was. *)
Theorem fibonacci_memoized_base lr fuel (n : Z) (memo : list Z) :
  0 <= n <= 1 ->
  (0 < fuel)%nat ->
  fibonacci_memoized lr fuel n memo
  = Done (n, memo ++ replicate (Z.to_nat (n + 1) - length memo) (-1))
  /\ (n < Z.of_nat (length memo) ->
      fibonacci_memoized lr fuel n memo = Done (n, memo)).
Proof.
  intros Hn Hfuel. destruct fuel as [|fuel]; [lia|].
  assert (fibonacci_memoized lr (S fuel) n memo = Done (n, grown n memo)) as H.
  { rewrite fibonacci_memoized_grown by (unfold INT_MAX; lia).
    rewrite fibonacci_memoized_S. rewrite to_size_t_nonneg by lia.
    destruct (Z.of_nat (length (grown n memo)) <=? n) eqn:E.
    { apply Z.leb_le in E. rewrite grown_length in E. lia. }
    rewrite obind_Done. destruct (n <=? 1) eqn:E1; [done|lia]. }
  split; [exact H|]. intros Hl. by rewrite H, grown_id.
Qed.

Lemma fibonacci_memoized_base_witness :
  fibonacci_memoized true 1 1 [] = Done (1, [-1; -1])
  /\ (1 < Z.of_nat (length (@nil Z)) ->
      fibonacci_memoized true 1 1 [] = Done (1, [])).
Proof.
  apply (fibonacci_memoized_base true 1 1 []); lia.
Defined.

(** The base case touches the cache: [fibonacci_memoized(0)] on the
    empty cache leaves a cache of one slot. *)
Lemma fibonacci_memoized_base_counterexample :
  exists memo',
    fibonacci_memoized true 1 0 [] = Done (0, memo')
    /\ memo' <> [] /\ length memo' = 1%nat.
Proof. exists [-1]. by vm_compute. Qed.

End Memo.

(** ** Prime counting: trial division and the sieve *)

Section Primes.

Lemma rem_zero_mul m d :
  0 <= m -> 0 < d -> Z.rem m d = 0 -> exists c, 0 <= c /\ m = d * c.
Proof.
  intros Hm Hd H. rewrite Z.rem_mod_nonneg in H by lia.
  exists (m / d). split; [apply Z.div_pos; lia|].
  pose proof (Z.div_mod m d ltac:(lia)). lia.
Qed.

Lemma mul_rem_zero d c : 0 < d -> 0 <= c -> Z.rem (d * c) d = 0.
Proof.
  intros Hd Hc. rewrite Z.rem_mod_nonneg by nia.
  rewrite Z.mul_comm. apply Z.mod_mul. lia.
Qed.

(** The inner loop clears the flags of j, j + i, j + 2i, ... up to
    [limit], and no other. *)
Lemma mark_multiples_spec limit i :
  1 <= i ->
  limit + i <= INT_MAX ->
  forall (fuel : nat) (j : Z) (s : list bool),
    0 <= j ->
    Z.max 0 (limit + 1 - j) < Z.of_nat fuel ->
    length s = Z.to_nat (limit + 1) ->
    exists s',
      mark_multiples fuel limit i j s = Done s'
      /\ length s' = length s
      /\ (forall m : nat,
            s' !! m = s !! m
            \/ (s' !! m = Some false
                /\ exists q, 0 <= q /\ Z.of_nat m = j + q * i))
      /\ (forall (m : nat) q,
            0 <= q -> Z.of_nat m = j + q * i -> Z.of_nat m <= limit ->
            s' !! m = Some false).
Proof.
  unfold INT_MAX. intros Hi Hmax.
  induction fuel as [|fuel IH]; intros j s Hj Hfuel Hlen; [lia|].
  simpl. destruct (j <=? limit) eqn:E.
  - apply Z.leb_le in E.
    rewrite set_index_Done by lia. rewrite obind_Done.
    rewrite wrap32_small by (unfold in_int, INT_MIN, INT_MAX; lia).
    destruct (IH (j + i) (<[Z.to_nat j := false]> s)) as (s' & Hr & Hl & Ha & Hb);
      [lia|lia|by rewrite length_insert|].
    exists s'. rewrite length_insert in Hl. split_and!; [done|done| |].
    + intros m. destruct (Ha m) as [Hm|(Hm & q & Hq & Hmq)].
      * destruct (decide (m = Z.to_nat j)) as [->|Hne].
        -- right. rewrite Hm, list_lookup_insert_eq by lia.
           split; [done|]. exists 0. lia.
        -- left. by rewrite Hm, list_lookup_insert_ne.
      * right. split; [done|]. exists (q + 1). lia.
    + intros m q Hq Hmq Hml.
      destruct (decide (q = 0)) as [->|Hq0].
      * destruct (Ha m) as [Hm|[Hm _]]; [|done].
        replace m with (Z.to_nat j) in * by lia.
        by rewrite Hm, list_lookup_insert_eq by lia.
      * apply (Hb m (q - 1)); lia.
  - apply Z.leb_gt in E. exists s. split_and!; [done|done| |].
    + intros m. by left.
    + intros m q Hq Hmq Hml. nia.
Qed.

Lemma sieve_inv_lookup limit i s (m : Z) :
  sieve_inv limit i s -> 0 <= m <= limit ->
  exists p, s !! Z.to_nat m = Some p /\ at_index s m = Done p.
Proof.
  intros [Hl _] Hm.
  destruct (lookup_lt_is_Some_2 s (Z.to_nat m)) as [p Hp]; [lia|].
  exists p. split; [done|]. by apply at_index_lookup; [lia|].
Qed.

(** One pass of the outer loop on a number whose flag is cleared. *)
Lemma sieve_inv_skip limit i s :
  2 <= i <= limit ->
  sieve_inv limit i s ->
  s !! Z.to_nat i = Some false ->
  sieve_inv limit (i + 1) s.
Proof.
  intros Hi [Hl Hs] Hp. split; [done|]. intros m Hm. rewrite (Hs m Hm).
  split.
  - intros [H|(d & Hd & Hdd & Hr)]; [by left|].
    right. exists d. split_and!; (done || lia).
  - intros [H|(d & Hd & Hdd & Hr)]; [by left|].
    destruct (decide (d = i)) as [->|Hne].
    2: { right. exists d. split_and!; (done || lia). }
    apply (Hs (Z.to_nat i)) in Hp; [|lia]. rewrite Z2Nat.id in Hp by lia.
    destruct Hp as [Hp|(d' & Hd' & Hdd' & Hr')]; [lia|].
    right. exists d'. split_and!; [lia|lia|nia|].
    apply rem_zero_mul in Hr as (c & Hc & Hmc); [|lia|lia].
    apply rem_zero_mul in Hr' as (c' & Hc' & Hic); [|lia|lia].
    rewrite Hmc, Hic, <- Z.mul_assoc. apply mul_rem_zero; nia.
Qed.

(** One pass of the outer loop on a number whose flag is set. *)
Lemma sieve_inv_mark limit i s s' :
  2 <= i <= limit ->
  sieve_inv limit i s ->
  length s' = length s ->
  (forall m : nat,
      s' !! m = s !! m
      \/ (s' !! m = Some false
          /\ exists q, 0 <= q /\ Z.of_nat m = i * i + q * i)) ->
  (forall (m : nat) q,
      0 <= q -> Z.of_nat m = i * i + q * i -> Z.of_nat m <= limit ->
      s' !! m = Some false) ->
  sieve_inv limit (i + 1) s'.
Proof.
  intros Hi [Hl Hs] Hl' Ha Hb. split; [congruence|]. intros m Hm. split.
  - intros Hf. destruct (Ha m) as [E|(_ & q & Hq & Hmq)].
    + rewrite E in Hf. apply (Hs m Hm) in Hf as [H|(d & Hd & Hdd & Hr)]; [by left|].
      right. exists d. split_and!; (done || lia).
    + right. exists i. split_and!; [lia|lia|nia|].
      replace (Z.of_nat m) with (i * (i + q)) by lia. apply mul_rem_zero; lia.
  - intros Hst.
    assert (struck i (Z.of_nat m)
            \/ exists q, 0 <= q /\ Z.of_nat m = i * i + q * i) as [H|(q & Hq & Hmq)].
    { destruct Hst as [H|(d & Hd & Hdd & Hr)]; [by left; left|].
      destruct (decide (d = i)) as [->|Hne].
      - right. apply rem_zero_mul in Hr as (c & Hc & Hmc); [|lia|lia].
        exists (c - i). split; [nia|lia].
      - left. right. exists d. split_and!; (done || lia). }
    + apply (Hs m Hm) in H. destruct (Ha m) as [E|[E _]]; congruence.
    + by apply (Hb m q).
Qed.

(** The outer loop runs to the first [i] with [limit < i * i] and leaves
    the flags of the numbers no divisor below that [i] strikes out. *)
Lemma sieve_loop_spec limit (inner : nat) :
  2 <= limit <= 500000000 ->
  limit <= Z.of_nat inner ->
  forall (fuel : nat) (i : Z) (s : list bool),
    2 <= i ->
    (i - 1) * (i - 1) <= limit ->
    limit + 2 - i <= Z.of_nat fuel ->
    sieve_inv limit i s ->
    exists s' i',
      sieve_loop inner fuel limit i s = Done s'
      /\ sieve_inv limit i' s' /\ limit < i' * i' /\ 2 <= i'.
Proof.
  intros Hlimit Hinner.
  induction fuel as [|fuel IH]; intros i s Hi Hprev Hfuel Hinv; [nia|].
  assert (i - 1 <= limit) as Hile by nia.
  simpl. rewrite !wrap32_small by (unfold in_int, INT_MIN, INT_MAX; nia).
  destruct (i * i <=? limit) eqn:E.
  2: { apply Z.leb_gt in E. by exists s, i. }
  apply Z.leb_le in E.
  destruct (sieve_inv_lookup limit i s i Hinv) as (p & Hp & Hat); [nia|].
  rewrite Hat, obind_Done. destruct p.
  - destruct (mark_multiples_spec limit i ltac:(lia) ltac:(unfold INT_MAX; nia)
                inner (i * i) s) as (s1 & Hr & Hl1 & Ha & Hb);
      [nia|nia|apply Hinv|].
    rewrite Hr, obind_Done.
    apply IH; [lia|nia|lia|].
    apply (sieve_inv_mark limit i s s1); (done || nia).
  - rewrite obind_Done. apply IH; [lia|nia|lia|].
    apply sieve_inv_skip; (done || nia).
Qed.

Lemma indices_elem lo hi d : d ∈ indices lo hi <-> lo <= d <= hi.
Proof.
  unfold indices. rewrite list_elem_of_fmap. split.
  - intros (k & -> & Hk). apply elem_of_seq in Hk. lia.
  - intros H. exists (Z.to_nat (d - lo)). split; [lia|].
    apply elem_of_seq. lia.
Qed.

(** The trial loop leaves [is_prime] false exactly when one of the
    candidates divides [num]. *)
Lemma trial_division_false num cands :
  trial_division num cands = false
  <-> exists d, d ∈ cands /\ Z.rem num d = 0.
Proof.
  induction cands as [|i rest IH]; simpl.
  - split; [done|]. intros (d & Hd & _). by apply elem_of_nil in Hd.
  - destruct (Z.rem num i =? 0) eqn:E.
    + split; [|done]. intros _. exists i. split; [left|lia].
    + rewrite IH. split.
      * intros (d & Hd & Hr). exists d. split; [by right|done].
      * intros (d & Hd & Hr). apply elem_of_cons in Hd as [->|Hd]; [lia|].
        by exists d.
Qed.

(** Trial division up to the square root rejects the numbers the sieve
    has struck out when its outer loop ends. *)
Lemma trial_division_struck limit i m :
  2 <= m <= limit -> 2 <= i -> limit < i * i ->
  trial_division m (indices 2 (int_sqrt m)) = false <-> struck i m.
Proof.
  intros Hm Hi Hend. unfold int_sqrt.
  pose proof (Z.sqrt_spec m ltac:(lia)) as Hs. cbv zeta in Hs.
  pose proof (Z.sqrt_nonneg m) as Hs0.
  rewrite trial_division_false. split.
  - intros (d & Hd & Hr). apply indices_elem in Hd.
    assert (d * d <= m) as Hdd
      by (pose proof (Z.mul_le_mono_nonneg d (Z.sqrt m) d (Z.sqrt m)); lia).
    assert (d < i) as Hdi.
    { destruct (Z_lt_le_dec d i) as [|Hge]; [done|].
      pose proof (Z.mul_le_mono_nonneg i d i d). lia. }
    right. exists d. split_and!; (done || lia).
  - intros [H|(d & Hd & Hdd & Hr)]; [lia|].
    exists d. split; [|done]. apply indices_elem. split; [lia|].
    destruct (Z_le_gt_dec d (Z.sqrt m)) as [|Hgt]; [done|].
    pose proof (Z.mul_le_mono_nonneg (Z.sqrt m + 1) d (Z.sqrt m + 1) d). lia.
Qed.

(** The two counting loops agree when the flags are the verdicts of the
    trial loop. *)
Lemma count_loops_agree (s : list bool) (f : Z -> bool) (idx : list Z) :
  (forall m, m ∈ idx -> at_index s m = Done (f m)) ->
  forall count,
    for_eachM idx
      (fun i count =>
         p ← at_index s i;
         Done (if p : bool then wrap32 (count + 1) else count))
      count
    = Done (for_each idx
              (fun num count => if f num then wrap32 (count + 1) else count)
              count).
Proof.
  induction idx as [|i rest IH]; intros Hs count; [done|].
  simpl. rewrite (Hs i) by left. rewrite obind_Done.
  apply IH. intros m Hm. apply Hs. by right.
Qed.

Lemma initial_sieve_inv limit :
  2 <= limit ->
  sieve_inv limit 2
    (<[0%nat := false]> (<[1%nat := false]> (replicate (Z.to_nat (limit + 1)) true))).
Proof.
  intros Hl. split; [by rewrite !length_insert, length_replicate|].
  intros m Hm. unfold struck.
  destruct (decide (m = 0%nat)) as [->|H0].
  { rewrite list_lookup_insert_eq
      by (rewrite length_insert, length_replicate; lia).
    split; [intros _; left; lia|done]. }
  rewrite list_lookup_insert_ne by done.
  destruct (decide (m = 1%nat)) as [->|H1].
  { rewrite list_lookup_insert_eq by (rewrite length_replicate; lia).
    split; [intros _; left; lia|done]. }
  rewrite list_lookup_insert_ne by done.
  rewrite lookup_replicate_2 by lia.
  split; [done|]. intros [H|(d & Hd & _)]; lia.
Qed.

(** The sieve returns the count of trial division, on every limit whose
    squares stay in [int]. *)
Lemma prime_count_optimized_correct limit (fuel : nat) :
  limit <= 500000000 ->
  limit <= Z.of_nat fuel ->
  prime_count_optimized fuel limit = Done (prime_count limit).
Proof.
  intros Hmax Hfuel. unfold prime_count_optimized, prime_count.
  destruct (limit <? 2) eqn:E; [done|]. apply Z.ltb_ge in E.
  unfold new_vector.
  rewrite wrap32_small by (unfold in_int, INT_MIN, INT_MAX; lia).
  rewrite to_size_t_nonneg by lia.
  destruct (max_size <? limit + 1) eqn:Em; [unfold max_size in Em; lia|].
  rewrite obind_Done.
  rewrite set_index_Done by (rewrite length_replicate; lia). rewrite obind_Done.
  rewrite set_index_Done by (rewrite length_insert, length_replicate; lia).
  rewrite obind_Done.
  destruct (sieve_loop_spec limit fuel ltac:(lia) Hfuel fuel 2 _
              ltac:(lia) ltac:(lia) ltac:(lia) (initial_sieve_inv limit E))
    as (s' & i' & Hr & Hinv & Hend & Hi').
  change (Z.to_nat 1) with 1%nat. change (Z.to_nat 0) with 0%nat.
  rewrite Hr, obind_Done.
  apply (count_loops_agree s'
           (fun num => trial_division num (indices 2 (int_sqrt num)))).
  intros m Hm. apply indices_elem in Hm.
  destruct (sieve_inv_lookup limit i' s' m Hinv) as (p & Hp & Hat); [lia|].
  rewrite Hat. f_equal.
  pose proof (trial_division_struck limit i' m Hm Hi' Hend) as Ht.
  destruct Hinv as [_ Hs]. specialize (Hs (Z.to_nat m) ltac:(lia)).
  rewrite Z2Nat.id in Hs by lia. rewrite <- Hs, Hp in Ht.
  destruct p, (trial_division m (indices 2 (int_sqrt m))); try done.
  - destruct Ht as [Ht _]. by specialize (Ht eq_refl).
  - destruct Ht as [_ Ht]. by specialize (Ht eq_refl).
Qed.

(** C2: for every limit in [0, 5000] the sieve of
    [prime_count_optimized] returns, given fuel for its loops, the count
    that the trial division of [prime_count] returns; both return 0 when
    limit < 2. *)
Theorem prime_count_optimized_agrees (limit : Z) (fuel : nat) :
  0 <= limit <= 5000 ->
  limit <= Z.of_nat fuel ->
  prime_count_optimized fuel limit = Done (prime_count limit)
  /\ (limit < 2 ->
      prime_count limit = 0 /\ prime_count_optimized fuel limit = Done 0).
Proof.
  intros Hl Hfuel. split; [apply prime_count_optimized_correct; lia|].
  intros H2. unfold prime_count_optimized, prime_count.
  by destruct (limit <? 2) eqn:E; [|lia].
Qed.

Lemma prime_count_optimized_agrees_witness :
  prime_count_optimized 100 100 = Done (prime_count 100)
  /\ (100 < 2 ->
      prime_count 100 = 0 /\ prime_count_optimized 100 100 = Done 0).
Proof.
  apply (prime_count_optimized_agrees 100 100); lia.
Defined.

End Primes.

(** ** Matrix multiplication *)

Section Matrix.

(** The invariant rule for [for (int i = 0; i < n; ++i)]. *)
Lemma for_range_invariant {S} (I : nat -> S -> Prop) (n : nat)
    (body : Z -> S -> outcome S) (s0 : S) :
  I 0%nat s0 ->
  (forall (k : nat) (s : S),
      (k < n)%nat -> I k s ->
      exists s', body (Z.of_nat k) s = Done s' /\ I (Datatypes.S k) s') ->
  exists s', for_eachM (indices 0 (Z.of_nat n - 1)) body s0 = Done s' /\ I n s'.
Proof.
  intros H0 Hstep.
  destruct (for_eachM_invariant I (indices 0 (Z.of_nat n - 1)) body s0 H0)
    as (s' & Hr & Hs').
  - intros k i s Hk Hs.
    pose proof (lookup_lt_Some _ _ _ Hk) as Hlt. rewrite indices_length in Hlt.
    rewrite indices_lookup in Hk by lia. injection Hk as <-.
    apply Hstep; [lia|done].
  - exists s'. split; [done|]. rewrite indices_length in Hs'.
    by replace (Z.to_nat (Z.of_nat n - 1 + 1 - 0)) with n in Hs' by lia.
Qed.

Lemma entry_Some m i j v :
  entry m i j = Some v <-> exists row, m !! i = Some row /\ row !! j = Some v.
Proof.
  unfold entry. destruct (m !! i) as [row|]; simpl.
  - split; [intros H; by exists row|]. by intros (row' & [= <-] & H).
  - split; [done|]. by intros (row' & H & _).
Qed.

Lemma get2_entry m (i j : nat) v :
  entry m i j = Some v -> get2 m (Z.of_nat i) (Z.of_nat j) = Done v.
Proof.
  intros (row & Hrow & Hv)%entry_Some. unfold get2.
  rewrite (at_index_lookup m _ row) by (lia || by rewrite Nat2Z.id).
  rewrite obind_Done. apply at_index_lookup; [lia|by rewrite Nat2Z.id].
Qed.

Lemma set2_entry n m (i j : nat) v :
  dims n m -> (i < n)%nat -> (j < n)%nat ->
  exists m',
    set2 m (Z.of_nat i) (Z.of_nat j) v = Done m'
    /\ dims n m'
    /\ entry m' i j = Some v
    /\ forall i' j' : nat, (i' <> i \/ j' <> j) -> entry m' i' j' = entry m i' j'.
Proof.
  intros [Hl Hrows] Hi Hj.
  destruct (lookup_lt_is_Some_2 m i) as [row Hrow]; [lia|].
  pose proof (Hrows i row Hrow) as Hlr.
  exists (<[i := <[j := v]> row]> m). split_and!.
  - unfold set2.
    rewrite (at_index_lookup m _ row) by (lia || by rewrite Nat2Z.id).
    rewrite obind_Done, set_index_Done by lia. rewrite obind_Done.
    rewrite set_index_Done by lia. by rewrite !Nat2Z.id.
  - split; [by rewrite length_insert|]. intros i' row' Hr'.
    destruct (decide (i' = i)) as [->|Hne].
    + rewrite list_lookup_insert_eq in Hr' by lia. injection Hr' as <-.
      by rewrite length_insert.
    + rewrite list_lookup_insert_ne in Hr' by done. by apply (Hrows i').
  - apply entry_Some. exists (<[j := v]> row).
    split; apply list_lookup_insert_eq; lia.
  - intros i' j' Hne. unfold entry.
    destruct (decide (i' = i)) as [->|Hi'].
    + rewrite list_lookup_insert_eq by lia. rewrite Hrow. simpl.
      apply list_lookup_insert_ne. destruct Hne; congruence.
    + by rewrite list_lookup_insert_ne.
Qed.

Lemma new_matrix_zero (n : nat) :
  Z.of_nat n <= INT_MAX ->
  new_matrix (Z.of_nat n) 0 = Done (replicate n (replicate n 0)).
Proof.
  unfold INT_MAX. intros Hn. unfold new_matrix, new_vector.
  rewrite to_size_t_nonneg by lia.
  destruct (max_size <? Z.of_nat n) eqn:E; [unfold max_size in E; lia|].
  by rewrite !obind_Done, Nat2Z.id.
Qed.

Lemma zero_matrix_dims (n : nat) : dims n (replicate n (replicate n 0)).
Proof.
  split; [apply length_replicate|]. intros i row Hrow.
  apply lookup_replicate in Hrow as [-> _]. apply length_replicate.
Qed.

Lemma zero_matrix_entry (n i j : nat) :
  (i < n)%nat -> (j < n)%nat ->
  entry (replicate n (replicate n 0)) i j = Some 0.
Proof.
  intros Hi Hj. apply entry_Some. exists (replicate n 0).
  split; by apply lookup_replicate_2.
Qed.

Lemma initialised_weaken n (P Q : nat -> nat -> Prop) ab :
  initialised n P ab ->
  (forall i j : nat, (i < n)%nat -> (j < n)%nat -> Q i j -> P i j) ->
  initialised n Q ab.
Proof.
  intros (Ha & Hb & H) HPQ. split_and!; [done|done|].
  intros i j Hi Hj HQ. apply H; auto.
Qed.

Lemma accumulated_weaken n (c c' : nat -> nat -> nat) m :
  accumulated n c m ->
  (forall i j : nat, (i < n)%nat -> (j < n)%nat -> c' i j = c i j) ->
  accumulated n c' m.
Proof.
  intros [Hd H] Hc. split; [done|]. intros i j Hi Hj.
  rewrite Hc by done. by apply H.
Qed.

(** The initialisation loops assign every entry of both matrices. *)
Lemma init_matrices_spec (n : nat) a b :
  dims n a -> dims n b ->
  exists a' b',
    init_matrices (Z.of_nat n) (a, b) = Done (a', b')
    /\ initialised n (fun _ _ => True) (a', b').
Proof.
  intros Ha Hb. unfold init_matrices.
  destruct (for_range_invariant
              (fun i ab => initialised n (fun i' _ => (i' < i)%nat) ab) n
              (fun i ab =>
                 for_eachM (indices 0 (Z.of_nat n - 1))
                   (fun j '(matrix_a, matrix_b) =>
                      matrix_a ← set2 matrix_a i j (wrap32 (i + j));
                      matrix_b ← set2 matrix_b i j (wrap32 (wrap32 (i * j) + 1));
                      Done (matrix_a, matrix_b))
                   ab)
              (a, b)) as ([a' b'] & Hr & Hinit).
  - split_and!; [done|done|]. intros i j _ _ Hlt. lia.
  - intros i ab Hi Hab.
    destruct (for_range_invariant
                (fun j ab =>
                   initialised n
                     (fun i' j' => (i' < i)%nat \/ (i' = i /\ (j' < j)%nat)) ab)
                n
                (fun j '(matrix_a, matrix_b) =>
                   matrix_a ← set2 matrix_a (Z.of_nat i) j
                                (wrap32 (Z.of_nat i + j));
                   matrix_b ← set2 matrix_b (Z.of_nat i) j
                                (wrap32 (wrap32 (Z.of_nat i * j) + 1));
                   Done (matrix_a, matrix_b))
                ab) as (ab' & Hr & Hab').
    + apply (initialised_weaken _ _ _ _ Hab). intros i' j' _ _ [H|[_ H]]; lia.
    + intros j [a1 b1] Hj (Ha1 & Hb1 & H1). simpl in Ha1, Hb1.
      destruct (set2_entry n a1 i j (wrap32 (Z.of_nat i + Z.of_nat j)) Ha1 Hi Hj)
        as (a2 & Hra & Hda & Hea & Hoa).
      destruct (set2_entry n b1 i j
                  (wrap32 (wrap32 (Z.of_nat i * Z.of_nat j) + 1)) Hb1 Hi Hj)
        as (b2 & Hrb & Hdb & Heb & Hob).
      exists (a2, b2). rewrite Hra, obind_Done, Hrb, obind_Done.
      split; [done|]. split_and!; [done|done|]. intros i' j' Hi' Hj' Hf. simpl.
      destruct (decide (i' = i /\ j' = j)) as [[-> ->]|Hne]; [done|].
      rewrite Hoa, Hob by lia. apply H1; [done|done|lia].
    + exists ab'. split; [done|].
      apply (initialised_weaken _ _ _ _ Hab'). intros i' j' _ Hj' Hlt. lia.
  - exists a', b'. split; [done|].
    apply (initialised_weaken _ _ _ _ Hinit). intros i j Hi _ _. done.
Qed.

(** One accumulation in 32-bit arithmetic adds one term of the sum. *)
Lemma accumulate_term (p i j k : Z) :
  wrap32 (wrap32 p + wrap32 (wrap32 (i + k) * wrap32 (wrap32 (k * j) + 1)))
  = wrap32 (p + A i k * B k j).
Proof.
  unfold A, B. rewrite wrap32_add_l, wrap32_add_r.
  apply wrap32_add_compat; [done|].
  apply wrap32_mul_compat; rewrite wrap32_idemp; [done|].
  apply wrap32_add_l.
Qed.

(** The product loops give every entry all of its [n] terms. *)
Lemma multiply_loops_spec (n : nat) a b result :
  initialised n (fun _ _ => True) (a, b) ->
  accumulated n (fun _ _ => 0%nat) result ->
  exists result',
    multiply_loops (Z.of_nat n) a b result = Done result'
    /\ accumulated n (fun _ _ => n) result'.
Proof.
  intros (_ & _ & Hab) Hres. simpl in Hab. unfold multiply_loops.
  destruct (for_range_invariant
              (fun i r =>
                 accumulated n
                   (fun i' _ => if decide (i' < i)%nat then n else 0%nat) r)
              n
              (fun i result =>
                 for_eachM (indices 0 (Z.of_nat n - 1))
                   (fun k result =>
                      for_eachM (indices 0 (Z.of_nat n - 1))
                        (fun j result =>
                           r ← get2 result i j;
                           x ← get2 a i k;
                           y ← get2 b k j;
                           set2 result i j (wrap32 (r + wrap32 (x * y))))
                        result)
                   result)
              result) as (result' & Hr & Hacc).
  - apply (accumulated_weaken _ _ _ _ Hres). intros i j _ _. case_decide; lia.
  - intros i r Hi Hri.
    enough (exists r',
              for_eachM (indices 0 (Z.of_nat n - 1))
                (fun k result =>
                   for_eachM (indices 0 (Z.of_nat n - 1))
                     (fun j result =>
                        r ← get2 result (Z.of_nat i) j;
                        x ← get2 a (Z.of_nat i) k;
                        y ← get2 b k j;
                        set2 result (Z.of_nat i) j (wrap32 (r + wrap32 (x * y))))
                     result)
                r = Done r'
              /\ accumulated n
                   (fun i' _ => if decide (i' < i)%nat then n
                                else if decide (i' = i) then n else 0%nat) r')
      as (r' & Hrun' & Hr').
    { exists r'. split; [done|].
      apply (accumulated_weaken _ _ _ _ Hr'). intros i' j' _ _.
      repeat case_decide; lia. }
    apply (for_range_invariant
             (fun k r =>
                accumulated n
                  (fun i' _ => if decide (i' < i)%nat then n
                               else if decide (i' = i) then k else 0%nat) r)).
    { apply (accumulated_weaken _ _ _ _ Hri). intros i' j' _ _.
      repeat case_decide; lia. }
    intros k rk Hk Hrk.
    destruct (for_range_invariant
                (fun j r =>
                   accumulated n
                     (fun i' j' =>
                        if decide (i' < i)%nat then n
                        else if decide (i' = i)
                             then (if decide (j' < j)%nat then S k else k)
                             else 0%nat) r)
                n
                (fun j result =>
                   r ← get2 result (Z.of_nat i) j;
                   x ← get2 a (Z.of_nat i) (Z.of_nat k);
                   y ← get2 b (Z.of_nat k) j;
                   set2 result (Z.of_nat i) j (wrap32 (r + wrap32 (x * y))))
                rk) as (rk' & Hrun & Hrk').
    + apply (accumulated_weaken _ _ _ _ Hrk). intros i' j' _ _.
      repeat case_decide; lia.
    + intros j rj Hj [Hdj Hej].
      pose proof (Hej i j Hi Hj) as Hr0.
      destruct (decide (i < i)%nat) as [|_]; [lia|].
      destruct (decide (i = i)) as [_|]; [|done].
      destruct (decide (j < j)%nat) as [|_]; [lia|].
      destruct (Hab i k Hi Hk I) as [Hx _]. destruct (Hab k j Hk Hj I) as [_ Hy].
      rewrite (get2_entry _ _ _ _ Hr0), obind_Done.
      rewrite (get2_entry _ _ _ _ Hx), obind_Done.
      rewrite (get2_entry _ _ _ _ Hy), obind_Done.
      rewrite accumulate_term.
      destruct (set2_entry n rj i j
                  (wrap32 (partial_sum (Z.of_nat i) (Z.of_nat j) k
                           + A (Z.of_nat i) (Z.of_nat k) * B (Z.of_nat k) (Z.of_nat j)))
                  Hdj Hi Hj) as (rj' & Hset & Hd' & He' & Ho').
      exists rj'. split; [done|]. split; [done|]. intros i' j' Hi' Hj'.
      destruct (decide (i' = i /\ j' = j)) as [[-> ->]|Hne].
      * rewrite He'. repeat case_decide; try lia. reflexivity.
      * rewrite Ho' by lia. rewrite (Hej i' j' Hi' Hj').
        repeat case_decide; (reflexivity || lia).
    + exists rk'. split; [done|].
      apply (accumulated_weaken _ _ _ _ Hrk'). intros i' j' _ Hj'.
      repeat case_decide; lia.
  - exists result'. split; [done|].
    apply (accumulated_weaken _ _ _ _ Hacc). intros i j Hi _. case_decide; lia.
Qed.

(** In 32-bit arithmetic the function returns the matrix of the sums. *)
Lemma matrix_multiplication_wrapped (n : nat) :
  Z.of_nat n <= INT_MAX ->
  exists m,
    matrix_multiplication (Z.of_nat n) = Done m
    /\ accumulated n (fun _ _ => n) m.
Proof.
  intros Hn. unfold matrix_multiplication.
  rewrite new_matrix_zero by done. rewrite !obind_Done.
  destruct (init_matrices_spec n _ _ (zero_matrix_dims n) (zero_matrix_dims n))
    as (a & b & Hinit & Hab).
  rewrite Hinit, obind_Done. cbv beta iota. rewrite obind_Done.
  apply (multiply_loops_spec n a b); [done|].
  split; [apply zero_matrix_dims|]. intros i j Hi Hj.
  by rewrite zero_matrix_entry.
Qed.

Lemma sum_over_snoc idx x f : sum_over (idx ++ [x]) f = sum_over idx f + f x.
Proof.
  unfold sum_over. induction idx as [|y idx IH]; simpl; [lia|].
  rewrite IH. lia.
Qed.

(** The sum over the loop indices is the sum of the first [n] terms. *)
Lemma product_entry_partial_sum (n : nat) i j :
  product_entry (Z.of_nat n) i j = partial_sum i j n.
Proof.
  unfold product_entry. induction n as [|n IH]; [done|].
  rewrite indices_snoc by lia.
  replace (Z.of_nat (S n) - 1 - 1) with (Z.of_nat n - 1) by lia.
  rewrite sum_over_snoc, IH. simpl. do 3 f_equal; lia.
Qed.

Lemma term_mono i i' j j' k :
  0 <= i <= i' -> 0 <= j <= j' -> 0 <= k ->
  0 <= A i k * B k j <= A i' k * B k j'.
Proof.
  intros Hi Hj Hk. unfold A, B.
  assert (0 <= k * j <= k * j') by (split; [|apply Z.mul_le_mono_nonneg_l]; lia).
  split; [apply Z.mul_nonneg_nonneg; lia|].
  apply Z.mul_le_mono_nonneg; lia.
Qed.

Lemma partial_sum_mono i i' j j' (k k' : nat) :
  0 <= i <= i' -> 0 <= j <= j' -> (k <= k')%nat ->
  0 <= partial_sum i j k <= partial_sum i' j' k'.
Proof.
  intros Hi Hj Hk. induction Hk as [|k' Hk IH].
  - induction k as [|k IH]; simpl; [lia|].
    pose proof (term_mono i i' j j' (Z.of_nat k) Hi Hj ltac:(lia)). lia.
  - simpl. pose proof (term_mono i' i' j' j' (Z.of_nat k')
                         ltac:(lia) ltac:(lia) ltac:(lia)). lia.
Qed.

(** Up to size 226 every entry of the product fits an [int]. *)
Lemma partial_sum_in_int (n : nat) i j :
  (n <= 226)%nat -> 0 <= i < Z.of_nat n -> 0 <= j < Z.of_nat n ->
  in_int (partial_sum i j n).
Proof.
  intros Hn Hi Hj.
  pose proof (partial_sum_mono i 225 j 225 n 226
                ltac:(lia) ltac:(lia) ltac:(lia)) as H.
  replace (partial_sum 225 225 226) with 2147217525 in H by (by vm_compute).
  unfold in_int, INT_MIN, INT_MAX. lia.
Qed.

(** C6, as the code has it: for 0 <= size <= 226, the sizes at which
    every entry of the product fits an [int], the loops in the order
    i, k, j return the size-by-size matrix whose entry (i, j) is the sum
    over k of A[i][k] * B[k][j] with A[i][j] = i + j and
    B[i][j] = i * j + 1; [matrix_multiplication(3)] is the matrix with
    rows [3, 8, 13], [6, 14, 22], [9, 20, 31]. *)
Theorem matrix_multiplication_product (size : Z) :
  0 <= size <= 226 ->
  (exists m,
      matrix_multiplication size = Done m
      /\ dims (Z.to_nat size) m
      /\ forall i j : nat,
          Z.of_nat i < size -> Z.of_nat j < size ->
          entry m i j = Some (product_entry size (Z.of_nat i) (Z.of_nat j)))
  /\ matrix_multiplication 3 = Done [[3; 8; 13]; [6; 14; 22]; [9; 20; 31]].
Proof.
  intros Hsize. split; [|by vm_compute].
  destruct (matrix_multiplication_wrapped (Z.to_nat size))
    as (m & Hr & Hd & He); [unfold INT_MAX; lia|].
  rewrite Z2Nat.id in Hr by lia.
  exists m. split_and!; [done|done|]. intros i j Hi Hj.
  rewrite He by lia.
  rewrite wrap32_small by (apply partial_sum_in_int; lia).
  rewrite <- product_entry_partial_sum. by rewrite Z2Nat.id by lia.
Qed.

Lemma matrix_multiplication_product_witness :
  (exists m,
      matrix_multiplication 3 = Done m
      /\ dims (Z.to_nat 3) m
      /\ forall i j : nat,
          Z.of_nat i < 3 -> Z.of_nat j < 3 ->
          entry m i j = Some (product_entry 3 (Z.of_nat i) (Z.of_nat j)))
  /\ matrix_multiplication 3 = Done [[3; 8; 13]; [6; 14; 22]; [9; 20; 31]].
Proof.
  apply (matrix_multiplication_product 3). lia.
Defined.

(** At size 227 the entry (226, 226) of the product is 2185593455, above
    the largest [int]: the matrix returned holds another value there. *)
Lemma matrix_multiplication_counterexample :
  exists m v,
    matrix_multiplication 227 = Done m
    /\ entry m 226 226 = Some v
    /\ product_entry 227 226 226 = 2185593455
    /\ INT_MAX < product_entry 227 226 226
    /\ v <> product_entry 227 226 226.
Proof.
  destruct (matrix_multiplication_wrapped 227) as (m & Hr & _ & He);
    [by vm_compute|].
  change (Z.of_nat 227) with 227 in Hr.
  specialize (He 226%nat 226%nat ltac:(lia) ltac:(lia)).
  change (Z.of_nat 226) with 226 in He.
  exists m, (wrap32 (partial_sum 226 226 227)).
  split; [exact Hr|]. split; [exact He|].
  pose proof (product_entry_partial_sum 227 226 226) as Hp.
  change (Z.of_nat 227) with 227 in Hp. rewrite Hp.
  assert (partial_sum 226 226 227 = 2185593455) as -> by (vm_compute; reflexivity).
  split; [reflexivity|]. split; [reflexivity|].
  vm_compute. intros H. discriminate H.
Qed.

End Matrix.

(** ** The benchmark wrappers *)

Section Benchmark.

Lemma iterations_nonempty iterations :
  1 <= iterations -> indices 0 (iterations - 1) <> [].
Proof. intros H. by rewrite indices_cons by lia. Qed.

Lemma avg_divisor_zero iterations :
  avg_divisor iterations = 0 <-> iterations = 0.
Proof. unfold avg_divisor. lia. Qed.

Lemma avg_time_defined count iterations :
  iterations <> 0 ->
  avg_time count iterations
  = Done (Qdiv (inject_Z count) (inject_Z (1000000000 * iterations))).
Proof.
  intros H. unfold avg_time.
  destruct (avg_divisor iterations =? 0) eqn:E; [|reflexivity].
  apply Z.eqb_eq in E. unfold avg_divisor in E. lia.
Qed.

Lemma avg_time_zero count : avg_time count 0 = Undef.
Proof. reflexivity. Qed.

(** A fallible loop whose passes all return [v] leaves [v] after at
    least one pass. *)
Lemma for_eachM_overwrite {S} (idx : list Z) (v s : S) :
  idx <> [] -> for_eachM idx (fun _ _ => Done v) s = Done v.
Proof.
  intros Hne. destruct idx as [|i rest]; [done|]. clear Hne.
  revert i s. induction rest as [|j rest IH]; intros i s; [done|].
  exact (IH j v).
Qed.

(** The run of the matrix wrapper on an [int] size of at least 1. *)
Lemma benchmark_matrix_mult_run size iterations start stop :
  1 <= size <= INT_MAX ->
  1 <= iterations ->
  exists m sample,
    matrix_multiplication size = Done m
    /\ get2 m 0 0 = Done sample
    /\ benchmark_matrix_mult size iterations start stop
       = Done (sample,
               Qdiv (inject_Z (stop - start))
                    (inject_Z (1000000000 * iterations))).
Proof.
  intros Hsize Hit.
  destruct (matrix_multiplication_wrapped (Z.to_nat size))
    as (m & Hr & Hd & He); [lia|].
  rewrite Z2Nat.id in Hr by lia.
  specialize (He 0%nat 0%nat ltac:(lia) ltac:(lia)).
  apply get2_entry in He. change (Z.of_nat 0) with 0 in He.
  eexists m, _. split_and!; [done|exact He|].
  unfold benchmark_matrix_mult. rewrite Hr.
  rewrite for_eachM_overwrite by by apply iterations_nonempty.
  rewrite obind_Done, avg_time_defined by lia.
  by rewrite obind_Done, He, obind_Done.
Qed.

(** C7: for every n >= 0 on which the kernel returns (n < INT_MAX: at
    INT_MAX the loop counter of [sum_of_squares] cannot pass n) and
    every iterations >= 1 the first component of the tuple of
    [benchmark_sum_of_squares] is [sum_of_squares(n)], whatever the
    number of iterations and the clock readings: only the result of the
    last pass is kept. *)
Theorem benchmark_sum_of_squares_result (n iterations start stop : Z) :
  0 <= n < INT_MAX ->
  1 <= iterations ->
  exists avg,
    benchmark_sum_of_squares n iterations start stop
    = Done (sum_of_squares n, avg).
Proof.
  intros Hn Hit. unfold benchmark_sum_of_squares.
  rewrite for_each_overwrite by by apply iterations_nonempty.
  rewrite avg_time_defined by lia. by eexists.
Qed.

Lemma benchmark_sum_of_squares_result_witness :
  exists avg,
    benchmark_sum_of_squares 100 5 0 1000 = Done (sum_of_squares 100, avg).
Proof.
  apply (benchmark_sum_of_squares_result 100 5 0 1000); unfold INT_MAX; lia.
Defined.

(** C8: for an [int] size >= 1 and iterations >= 1 the first component of
    the tuple of [benchmark_matrix_mult] is one integer, the element at
    row 0, column 0 of [matrix_multiplication(size)]. *)
Theorem benchmark_matrix_mult_sample (size iterations start stop : Z) :
  1 <= size <= INT_MAX ->
  1 <= iterations ->
  exists m (sample : Z) avg,
    matrix_multiplication size = Done m
    /\ get2 m 0 0 = Done sample
    /\ benchmark_matrix_mult size iterations start stop = Done (sample, avg).
Proof.
  intros Hsize Hit.
  destruct (benchmark_matrix_mult_run size iterations start stop Hsize Hit)
    as (m & sample & Hm & Hs & Hb).
  by exists m, sample, (Qdiv (inject_Z (stop - start))
                          (inject_Z (1000000000 * iterations))).
Qed.

Lemma benchmark_matrix_mult_sample_witness :
  exists m (sample : Z) avg,
    matrix_multiplication 3 = Done m
    /\ get2 m 0 0 = Done sample
    /\ benchmark_matrix_mult 3 2 0 1000 = Done (sample, avg).
Proof.
  apply (benchmark_matrix_mult_sample 3 2 0 1000); unfold INT_MAX; lia.
Defined.

(** C9: in each of the four wrappers the average is the elapsed time
    divided by 1e9 * iterations.  The divisor is zero exactly when
    iterations = 0; with iterations >= 1 the division is defined and the
    wrapper returns the quotient beside the result of its kernel (for
    the two kernels with a counted loop up to their argument, on
    arguments below INT_MAX, where that loop ends); with iterations = 0
    every wrapper divides by zero, which is undefined. *)
Theorem benchmark_division (arg iterations start stop : Z) :
  (avg_divisor iterations = 0 <-> iterations = 0)
  /\ (1 <= iterations ->
      let avg := Qdiv (inject_Z (stop - start))
                      (inject_Z (1000000000 * iterations)) in
      avg_time (stop - start) iterations = Done avg
      /\ (arg < INT_MAX ->
          benchmark_sum_of_squares arg iterations start stop
          = Done (sum_of_squares arg, avg)
          /\ benchmark_prime_count arg iterations start stop
             = Done (prime_count arg, avg))
      /\ benchmark_fibonacci arg iterations start stop
         = Done (fibonacci_recursive arg, avg)
      /\ (1 <= arg <= INT_MAX ->
          exists sample,
            benchmark_matrix_mult arg iterations start stop
            = Done (sample, avg)))
  /\ (iterations = 0 ->
      avg_time (stop - start) iterations = Undef
      /\ benchmark_sum_of_squares arg iterations start stop = Undef
      /\ benchmark_prime_count arg iterations start stop = Undef
      /\ benchmark_fibonacci arg iterations start stop = Undef
      /\ benchmark_matrix_mult arg iterations start stop = Undef).
Proof.
  split; [apply avg_divisor_zero|]. split.
  - intros Hit avg. subst avg.
    unfold benchmark_sum_of_squares, benchmark_prime_count, benchmark_fibonacci.
    rewrite !for_each_overwrite by by apply iterations_nonempty.
    rewrite !avg_time_defined by lia. split_and!; try done.
    intros Harg.
    destruct (benchmark_matrix_mult_run arg iterations start stop Harg Hit)
      as (m & sample & _ & _ & Hb).
    by exists sample.
  - intros ->. split_and!; reflexivity.
Qed.

Lemma benchmark_division_witness :
  (avg_divisor 5 = 0 <-> 5 = 0)
  /\ benchmark_sum_of_squares 100 5 0 1000
     = Done (sum_of_squares 100, Qdiv (inject_Z (1000 - 0))
                                      (inject_Z (1000000000 * 5)))
  /\ benchmark_matrix_mult 3 0 0 1000 = Undef.
Proof.
  destruct (benchmark_division 100 5 0 1000) as (Hzero & Hrun & _).
  destruct (benchmark_division 3 0 0 1000) as (_ & _ & Hundef).
  split; [exact Hzero|]. split.
  - destruct (Hrun ltac:(lia)) as (_ & H & _).
    destruct (H ltac:(unfold INT_MAX; lia)) as [H' _]. exact H'.
  - destruct (Hundef eq_refl) as (_ & _ & _ & _ & H). exact H.
Defined.

End Benchmark.

(** * Further properties of the kernels *)

(** ** The ranges on which the sums of squares are exact *)

Section SumOfSquaresRange.

Lemma closed_form_mono n N :
  0 <= n <= N ->
  0 <= n * (n + 1) * (2 * n + 1) <= N * (N + 1) * (2 * N + 1).
Proof.
  intros H.
  assert (0 <= n * (n + 1) <= N * (N + 1))
    by (split; [|apply Z.mul_le_mono_nonneg]; lia).
  split; [|apply Z.mul_le_mono_nonneg]; lia.
Qed.

Lemma sum_of_squares_nonpositive n : n <= 0 -> sum_of_squares n = 0.
Proof. intros H. unfold sum_of_squares. by rewrite indices_nil by lia. Qed.

(** The accumulator of the loop holds the sum up to n = 3024616. *)
Lemma sum_of_squares_six (k : nat) :
  Z.of_nat k <= 3024616 ->
  6 * sum_of_squares (Z.of_nat k)
  = Z.of_nat k * (Z.of_nat k + 1) * (2 * Z.of_nat k + 1).
Proof.
  induction k as [|k IH]; intros Hk; [reflexivity|].
  rewrite sum_of_squares_step by lia.
  replace (Z.of_nat (S k) - 1) with (Z.of_nat k) by lia.
  specialize (IH ltac:(lia)).
  set (n := Z.of_nat k) in *. replace (Z.of_nat (S k)) with (n + 1) by lia.
  pose proof (closed_form_mono n 3024615 ltac:(lia)) as H1.
  pose proof (closed_form_mono (n + 1) 3024616 ltac:(lia)) as H2.
  assert (0 <= (n + 1) * (n + 1) <= 3024616 * 3024616) as H3
    by (split; [|apply Z.mul_le_mono_nonneg]; lia).
  rewrite (wrap64_small ((n + 1) * (n + 1)))
    by (unfold in_llong, LLONG_MIN, LLONG_MAX; lia).
  rewrite wrap64_small by (unfold in_llong, LLONG_MIN, LLONG_MAX; lia).
  lia.
Qed.

Lemma sum_of_squares_exact n :
  0 <= n <= 3024616 -> sum_of_squares n = n * (n + 1) * (2 * n + 1) / 6.
Proof.
  intros Hn.
  pose proof (sum_of_squares_six (Z.to_nat n)) as Hc.
  rewrite Z2Nat.id in Hc by lia. specialize (Hc ltac:(lia)).
  rewrite <- Hc. by rewrite Z.mul_comm, Z.div_mul.
Qed.

(** X1: [sum_of_squares(n)] is the exact sum n(n+1)(2n+1)/6 for every
    0 <= n <= 3024616, and 3024616 is the last such n: the sum for
    3024617 is above the largest [long long]. *)
Theorem sum_of_squares_exact_range (n : Z) :
  0 <= n <= 3024616 ->
  sum_of_squares n = n * (n + 1) * (2 * n + 1) / 6
  /\ in_llong (n * (n + 1) * (2 * n + 1) / 6)
  /\ LLONG_MAX < 3024617 * (3024617 + 1) * (2 * 3024617 + 1) / 6.
Proof.
  intros Hn.
  pose proof (sum_of_squares_six (Z.to_nat n)) as Hc.
  rewrite Z2Nat.id in Hc by lia. specialize (Hc ltac:(lia)).
  pose proof (sum_of_squares_exact n Hn) as Hs.
  split; [done|]. split; [|reflexivity].
  rewrite <- Hs. pose proof (closed_form_mono n 3024616 ltac:(lia)).
  unfold in_llong, LLONG_MIN, LLONG_MAX. lia.
Qed.

Lemma sum_of_squares_exact_range_witness :
  sum_of_squares 1000 = 1000 * (1000 + 1) * (2 * 1000 + 1) / 6.
Proof.
  destruct (sum_of_squares_exact_range 1000) as [H _]; [lia|exact H].
Defined.

(** The closed form before its last operation, when the operands are
    in range. *)
Lemma sum_of_squares_optimized_product n :
  -3024617 <= n <= 3024616 ->
  sum_of_squares_optimized n
  = Z.quot (wrap64 (n * (n + 1) * (2 * n + 1))) 6.
Proof.
  intros Hn. unfold sum_of_squares_optimized.
  assert (-3024617 * 3024617 <= n * (n + 1) <= 3024617 * 3024617) by nia.
  rewrite (wrap64_small (n + 1)) by (unfold in_llong, LLONG_MIN, LLONG_MAX; lia).
  rewrite (wrap64_small (2 * n)) by (unfold in_llong, LLONG_MIN, LLONG_MAX; lia).
  rewrite (wrap64_small (2 * n + 1)) by (unfold in_llong, LLONG_MIN, LLONG_MAX; lia).
  by rewrite (wrap64_small (n * (n + 1)))
    by (unfold in_llong, LLONG_MIN, LLONG_MAX; lia).
Qed.

(** X2: the closed form agrees with the loop for every
    0 <= n <= 1664510, the largest n whose product n(n+1)(2n+1) a
    [long long] holds. *)
Theorem sum_of_squares_optimized_agrees_range (n : Z) :
  0 <= n <= 1664510 ->
  sum_of_squares_optimized n = sum_of_squares n
  /\ LLONG_MAX < 1664511 * (1664511 + 1) * (2 * 1664511 + 1).
Proof.
  intros Hn. split; [|reflexivity].
  rewrite sum_of_squares_exact, sum_of_squares_optimized_product by lia.
  pose proof (closed_form_mono n 1664510 ltac:(lia)).
  rewrite wrap64_small by (unfold in_llong, LLONG_MIN, LLONG_MAX; lia).
  apply Z.quot_div_nonneg; lia.
Qed.

Lemma sum_of_squares_optimized_agrees_range_witness :
  sum_of_squares_optimized 20000 = sum_of_squares 20000.
Proof.
  destruct (sum_of_squares_optimized_agrees_range 20000) as [H _];
    [lia|exact H].
Defined.

(** X3: for 1664511 <= n <= 3024616 the loop still returns the exact
    sum, but the product of the closed form has left the range of
    [long long] and [sum_of_squares_optimized] returns a smaller value. *)
Theorem sum_of_squares_optimized_overflow_range (n : Z) :
  1664511 <= n <= 3024616 ->
  sum_of_squares n = n * (n + 1) * (2 * n + 1) / 6
  /\ sum_of_squares_optimized n < sum_of_squares n.
Proof.
  intros Hn.
  pose proof (sum_of_squares_six (Z.to_nat n)) as Hc.
  rewrite Z2Nat.id in Hc by lia. specialize (Hc ltac:(lia)).
  split; [apply sum_of_squares_exact; lia|].
  rewrite sum_of_squares_optimized_product by lia.
  pose proof (closed_form_mono 1664511 n ltac:(lia)) as Hlow.
  pose proof (wrap64_range (n * (n + 1) * (2 * n + 1))) as Hw.
  unfold in_llong, LLONG_MIN, LLONG_MAX in Hw.
  pose proof (Z.quot_le_mono (wrap64 (n * (n + 1) * (2 * n + 1)))
                9223372036854775807 6 ltac:(lia) ltac:(lia)) as Hq.
  change (Z.quot 9223372036854775807 6) with 1537228672809129301 in Hq.
  lia.
Qed.

Lemma sum_of_squares_optimized_overflow_range_witness :
  sum_of_squares_optimized 2000000 < sum_of_squares 2000000.
Proof.
  destruct (sum_of_squares_optimized_overflow_range 2000000) as [_ H];
    [lia|exact H].
Defined.

(** X4: for a negative argument the loop does not run and
    [sum_of_squares] returns 0, while the closed form returns the
    negated sum of the squares up to -n - 1, which is negative when
    n <= -2. *)
Theorem sum_of_squares_negative (n : Z) :
  -1664511 <= n <= -1 ->
  sum_of_squares n = 0
  /\ sum_of_squares_optimized n = - sum_of_squares (- n - 1)
  /\ (n <= -2 -> sum_of_squares_optimized n < 0).
Proof.
  intros Hn. split; [apply sum_of_squares_nonpositive; lia|].
  pose proof (sum_of_squares_six (Z.to_nat (- n - 1))) as Hc.
  rewrite Z2Nat.id in Hc by lia. specialize (Hc ltac:(lia)).
  pose proof (closed_form_mono (- n - 1) 1664510 ltac:(lia)) as Hm.
  assert (n * (n + 1) * (2 * n + 1)
          = - ((- n - 1) * (- n - 1 + 1) * (2 * (- n - 1) + 1))) as HP by lia.
  assert (sum_of_squares_optimized n = - sum_of_squares (- n - 1)) as Ho.
  { rewrite sum_of_squares_optimized_product by lia. rewrite HP.
    rewrite wrap64_small by (unfold in_llong, LLONG_MIN, LLONG_MAX; lia).
    rewrite Z.quot_opp_l by lia. f_equal.
    rewrite <- Hc. rewrite Z.mul_comm. apply Z.quot_mul. lia. }
  split; [done|]. intros Hn2. rewrite Ho.
  pose proof (closed_form_mono 1 (- n - 1) ltac:(lia)). lia.
Qed.

Lemma sum_of_squares_negative_witness :
  sum_of_squares (-3) = 0 /\ sum_of_squares_optimized (-3) = - sum_of_squares 2.
Proof.
  destruct (sum_of_squares_negative (-3)) as (H1 & H2 & _); [lia|]. by split.
Defined.

End SumOfSquaresRange.

(** ** Prime counting counts primes *)

#[global] Instance prime_decision (p : Z) : Decision (prime p) := prime_dec p.

(** The primes among 2, ..., limit. *)
Definition primes_upto (limit : Z) : list Z := filter prime (indices 2 limit).

Section PrimeCorrectness.

Lemma small_candidate num d :
  2 <= num -> 2 <= d -> d * d <= num -> d ∈ indices 2 (int_sqrt num).
Proof.
  intros Hnum Hd Hdd. apply indices_elem. split; [done|]. unfold int_sqrt.
  pose proof (Z.sqrt_spec num ltac:(lia)) as Hs. cbv zeta in Hs.
  pose proof (Z.sqrt_nonneg num).
  destruct (Z_le_gt_dec d (Z.sqrt num)) as [|Hgt]; [done|].
  pose proof (Z.mul_le_mono_nonneg (Z.sqrt num + 1) d (Z.sqrt num + 1) d). lia.
Qed.

Lemma candidate_small num d :
  2 <= num -> d ∈ indices 2 (int_sqrt num) -> 2 <= d /\ d * d <= num /\ d < num.
Proof.
  intros Hnum Hd. apply indices_elem in Hd. unfold int_sqrt in Hd.
  pose proof (Z.sqrt_spec num ltac:(lia)) as Hs. cbv zeta in Hs.
  pose proof (Z.mul_le_mono_nonneg d (Z.sqrt num) d (Z.sqrt num)).
  split; [lia|]. split; [lia|]. nia.
Qed.

Lemma trial_division_verdict (num : Z) :
  2 <= num ->
  trial_division num (indices 2 (int_sqrt num)) = true <-> prime num.
Proof.
  intros Hnum. split.
  - intros Ht. apply prime_alt. split; [lia|]. intros n Hn [c Hc].
    assert (forall d, 2 <= d -> d * d <= num -> Z.rem num d = 0 -> False) as Hno.
    { intros d Hd Hdd Hr.
      assert (trial_division num (indices 2 (int_sqrt num)) = false) as Hf
        by (apply trial_division_false; exists d;
            split; [by apply small_candidate|done]).
      congruence. }
    assert (2 <= c) by nia.
    destruct (Z_le_gt_dec (n * n) num) as [Hsmall|Hbig].
    + apply (Hno n); [lia|done|]. rewrite Hc, Z.mul_comm. apply mul_rem_zero; lia.
    + apply (Hno c); [lia|nia|]. rewrite Hc. apply mul_rem_zero; lia.
  - intros Hp. destruct (trial_division num _) eqn:Ht; [done|].
    apply trial_division_false in Ht as (d & Hd & Hr).
    apply candidate_small in Hd as (Hd2 & Hdd & Hdn); [|done].
    apply prime_alt in Hp as [_ Hp]. exfalso. apply (Hp d); [lia|].
    apply rem_zero_mul in Hr as (c & _ & Hc); [|lia|lia].
    exists c. lia.
Qed.

(** X5: for a candidate num >= 2 the trial loop of [prime_count], which
    tries the divisors 2, ..., floor(sqrt(num)) and breaks at the first
    that divides, leaves [is_prime] true exactly when num is prime, and
    false exactly when num has a divisor d >= 2 with d * d <= num. *)
Theorem trial_division_prime (num : Z) :
  2 <= num ->
  (trial_division num (indices 2 (int_sqrt num)) = true <-> prime num)
  /\ (trial_division num (indices 2 (int_sqrt num)) = false
      <-> exists d, 2 <= d /\ d * d <= num /\ (d | num)).
Proof.
  intros Hnum. split; [by apply trial_division_verdict|].
  rewrite trial_division_false. split.
  - intros (d & Hd & Hr).
    apply candidate_small in Hd as (Hd2 & Hdd & _); [|done].
    exists d. split_and!; [done|done|].
    apply rem_zero_mul in Hr as (c & _ & Hc); [|lia|lia].
    exists c. lia.
  - intros (d & Hd2 & Hdd & [c Hc]).
    exists d. split; [by apply small_candidate|].
    rewrite Hc, Z.mul_comm. apply mul_rem_zero; nia.
Qed.

Lemma trial_division_prime_witness :
  trial_division 97 (indices 2 (int_sqrt 97)) = true <-> prime 97.
Proof. apply (trial_division_prime 97). lia. Defined.

(** The counting loop of [prime_count] counts the primes it visits. *)
Lemma count_loop_primes (idx : list Z) :
  (forall x, x ∈ idx -> 2 <= x) ->
  Z.of_nat (length idx) <= INT_MAX ->
  for_each idx
    (fun num count =>
       let sqrt_num := int_sqrt num in
       let is_prime := trial_division num (indices 2 sqrt_num) in
       if is_prime then wrap32 (count + 1) else count)
    0
  = Z.of_nat (length (filter prime idx)).
Proof.
  unfold INT_MAX.
  induction idx as [|x idx IH] using rev_ind; intros Hge Hlen; [done|].
  rewrite length_app in Hlen. simpl in Hlen.
  rewrite for_each_snoc, IH; [|intros y Hy; apply Hge, elem_of_app; by left|lia].
  pose proof (length_filter prime idx) as Hfl.
  rewrite filter_app, length_app, filter_cons, filter_nil. cbv zeta.
  pose proof (trial_division_verdict x
                (Hge x ltac:(apply elem_of_app; right; left))) as Ht.
  destruct (decide (prime x)) as [Hp|Hnp].
  - rewrite (proj2 Ht Hp). simpl.
    rewrite wrap32_small by (unfold in_int, INT_MIN, INT_MAX; lia). lia.
  - destruct (trial_division x _); [by destruct Hnp; apply Ht|]. simpl. lia.
Qed.

Lemma prime_count_primes_upto (limit : Z) :
  limit < INT_MAX -> prime_count limit = Z.of_nat (length (primes_upto limit)).
Proof.
  intros Hl. unfold prime_count, primes_upto.
  destruct (limit <? 2) eqn:E.
  - apply Z.ltb_lt in E. by rewrite indices_nil by lia.
  - apply Z.ltb_ge in E. apply count_loop_primes.
    + intros x Hx. apply indices_elem in Hx. lia.
    + rewrite indices_length. lia.
Qed.

(** X6: for every limit below [INT_MAX], [prime_count(limit)] is the
    number of primes p with 2 <= p <= limit; it is 0 for every
    limit < 2, negative limits included. *)
Theorem prime_count_counts_primes (limit : Z) :
  limit < INT_MAX ->
  prime_count limit = Z.of_nat (length (primes_upto limit))
  /\ (limit < 2 -> prime_count limit = 0).
Proof.
  intros Hl. split; [by apply prime_count_primes_upto|].
  intros H2. unfold prime_count. by destruct (limit <? 2) eqn:E; [|lia].
Qed.

Lemma prime_count_counts_primes_witness :
  prime_count 30 = Z.of_nat (length (primes_upto 30)).
Proof.
  destruct (prime_count_counts_primes 30) as [H _]; [by vm_compute|exact H].
Defined.

(** X7: for 0 <= limit <= 500000000 (the squares of the sieve stay in
    [int]) [prime_count_optimized(limit)] returns the number of primes
    p with 2 <= p <= limit, with no access outside its vector. *)
Theorem prime_count_optimized_counts_primes (limit : Z) (fuel : nat) :
  0 <= limit <= 500000000 ->
  limit <= Z.of_nat fuel ->
  prime_count_optimized fuel limit = Done (Z.of_nat (length (primes_upto limit))).
Proof.
  intros Hl Hfuel. rewrite prime_count_optimized_correct by lia.
  f_equal. apply prime_count_primes_upto. unfold INT_MAX. lia.
Qed.

Lemma prime_count_optimized_counts_primes_witness :
  prime_count_optimized 1000 1000
  = Done (Z.of_nat (length (primes_upto 1000))).
Proof. apply (prime_count_optimized_counts_primes 1000 1000); lia. Defined.

(** X8: for 2 <= limit <= 500000000 the marking loops of the sieve,
    started on the vector of limit + 1 flags with flags 0 and 1 cleared,
    end with flag m set exactly when m is prime, for every m <= limit. *)
Theorem sieve_flags_primes (limit : Z) (fuel : nat) :
  2 <= limit <= 500000000 ->
  limit <= Z.of_nat fuel ->
  exists is_prime,
    sieve_loop fuel fuel limit 2
      (<[0%nat := false]>
         (<[1%nat := false]> (replicate (Z.to_nat (limit + 1)) true)))
    = Done is_prime
    /\ length is_prime = Z.to_nat (limit + 1)
    /\ forall m : Z,
        0 <= m <= limit -> is_prime !! Z.to_nat m = Some (bool_decide (prime m)).
Proof.
  intros Hl Hfuel.
  destruct (sieve_loop_spec limit fuel ltac:(lia) Hfuel fuel 2 _
              ltac:(lia) ltac:(lia) ltac:(lia)
              (initial_sieve_inv limit ltac:(lia)))
    as (s' & i' & Hr & Hinv & Hend & Hi').
  exists s'. split; [done|]. split; [apply Hinv|]. intros m Hm.
  destruct (sieve_inv_lookup limit i' s' m Hinv Hm) as (p & Hp & _).
  rewrite Hp. f_equal.
  destruct Hinv as [_ Hs]. specialize (Hs (Z.to_nat m) ltac:(lia)).
  rewrite Z2Nat.id, Hp in Hs by lia.
  destruct (Z_lt_le_dec m 2) as [Hsmall|Hbig].
  - assert (p = false) as -> by (assert (Some p = Some false) as [= ->]
                                   by (apply Hs; left; lia); done).
    symmetry. apply bool_decide_eq_false. intros [Hgt _]. lia.
  - pose proof (trial_division_struck limit i' m ltac:(lia) Hi' Hend) as Hst.
    pose proof (trial_division_verdict m Hbig) as Htp.
    destruct p.
    + symmetry. apply bool_decide_eq_true, Htp.
      destruct (trial_division m _); [done|].
      assert (Some true = Some false) by (apply Hs, Hst; done). done.
    + symmetry. apply bool_decide_eq_false. intros Hprime.
      apply Htp in Hprime.
      assert (trial_division m (indices 2 (int_sqrt m)) = false)
        by (apply Hst, Hs; done).
      congruence.
Qed.

Lemma sieve_flags_primes_witness :
  exists is_prime,
    sieve_loop 30 30 30 2
      (<[0%nat := false]>
         (<[1%nat := false]> (replicate (Z.to_nat (30 + 1)) true)))
    = Done is_prime
    /\ length is_prime = Z.to_nat (30 + 1)
    /\ forall m : Z,
        0 <= m <= 30 -> is_prime !! Z.to_nat m = Some (bool_decide (prime m)).
Proof. apply (sieve_flags_primes 30 30); lia. Defined.

End PrimeCorrectness.

(** ** The Fibonacci kernels on their whole exact range *)

(** The cache when exactly the slots 2, ..., k - 1 have been computed:
    slots 0 and 1 are never written. *)
Definition filled_to (k : nat) (memo : list Z) : Prop :=
  forall (i : nat) (v : Z),
    memo !! i = Some v -> v = if decide (2 <= i < k)%nat then F i else -1.

(** A cache without gaps: every slot from index 2 on is computed. *)
Definition tidy (memo : list Z) : Prop := filled_to (length memo) memo.

Section FibonacciRange.

(** X9: [fibonacci_recursive(n)] is the Fibonacci number F(n) for every
    0 <= n <= 92; F(92) fits a [long long] and F(93) does not. *)
Theorem fibonacci_recursive_exact_range (n : Z) :
  0 <= n <= 92 ->
  fibonacci_recursive n = F (Z.to_nat n)
  /\ in_llong (F (Z.to_nat n))
  /\ LLONG_MAX < F 93.
Proof.
  intros Hn. split_and!; [|apply F_in_llong; lia|reflexivity].
  rewrite <- (Z2Nat.id n) at 1 by lia. apply fibonacci_recursive_exact. lia.
Qed.

Lemma fibonacci_recursive_exact_range_witness :
  fibonacci_recursive 20 = F (Z.to_nat 20).
Proof.
  destruct (fibonacci_recursive_exact_range 20) as [H _]; [lia|exact H].
Defined.

(** X10: for every 0 <= n <= 92, from every cache state reachable
    through calls with any [int] argument and with either order of the
    two recursive calls, [fibonacci_memoized(n)] returns F(n), the value
    of [fibonacci_recursive(n)]. *)
Theorem fibonacci_memoized_exact_range lr fuel (n : Z) (memo : list Z) :
  0 <= n <= 92 ->
  reachable memo ->
  n < Z.of_nat fuel ->
  exists memo',
    fibonacci_memoized lr fuel n memo = Done (F (Z.to_nat n), memo')
    /\ fibonacci_recursive n = F (Z.to_nat n).
Proof.
  intros Hn Hreach Hfuel.
  pose proof (fibonacci_recursive_exact (Z.to_nat n) ltac:(lia)) as Hrec.
  rewrite Z2Nat.id in Hrec by lia.
  pose proof (F_in_llong (Z.to_nat n) ltac:(lia)) as Hin.
  destruct (fibonacci_memoized_returns lr fuel n memo) as (memo' & Hr & _).
  - unfold INT_MAX. lia.
  - done.
  - intros i v _ Hv. by apply (reachable_invariant64 memo Hreach i).
  - exists memo'. split; [|done]. rewrite Hr. unfold F64.
    by rewrite wrap64_small.
Qed.

Lemma fibonacci_memoized_exact_range_witness :
  exists memo',
    fibonacci_memoized false 91 90 [] = Done (F (Z.to_nat 90), memo')
    /\ fibonacci_recursive 90 = F (Z.to_nat 90).
Proof.
  apply (fibonacci_memoized_exact_range false 91 90 []);
    [lia | apply reachable_start | lia].
Defined.

Lemma filled_to_eq k k' memo :
  filled_to k memo -> k = k' -> filled_to k' memo.
Proof. by intros H <-. Qed.

Lemma F_not_sentinel (i : nat) : F i <> -1.
Proof. pose proof (F_nonneg i). lia. Qed.

(** A call whose slot exists, on a cache computed up to [k]: the cache
    is then computed up to the larger of [k] and [n + 1]. *)
Lemma fibonacci_memoized_fills lr (fuel : nat) :
  forall (n : Z) (memo : list Z) (k : nat),
    0 <= n <= 92 ->
    n < Z.of_nat fuel ->
    n < Z.of_nat (length memo) ->
    filled_to k memo ->
    exists memo',
      fibonacci_memoized lr fuel n memo = Done (F (Z.to_nat n), memo')
      /\ length memo' = length memo
      /\ filled_to (Nat.max k (Z.to_nat n + 1)) memo'.
Proof.
  induction fuel as [|fuel IH]; intros n memo k Hn Hfuel Hlen Hk; [lia|].
  rewrite fibonacci_memoized_S.
  rewrite to_size_t_nonneg by lia.
  destruct (Z.of_nat (length memo) <=? n) eqn:E; [lia|]. clear E.
  rewrite obind_Done.
  destruct (n <=? 1) eqn:E1.
  { exists memo. split_and!; [|done|].
    - assert (n = 0 \/ n = 1) as [-> | ->] by lia; reflexivity.
    - intros i v Hv. rewrite (Hk i v Hv). repeat case_decide; (done || lia). }
  destruct (lookup_lt_is_Some_2 memo (Z.to_nat n)) as [x Hx]; [lia|].
  rewrite (at_index_lookup _ _ x) by (done || lia). rewrite obind_Done.
  pose proof (Hk _ _ Hx) as Hxv.
  destruct (decide (2 <= Z.to_nat n < k)%nat) as [Hin|Hout].
  { subst x. pose proof (F_not_sentinel (Z.to_nat n)).
    destruct (F (Z.to_nat n) =? -1) eqn:Ex; [lia|]. simpl negb. cbv iota.
    exists memo. split_and!; [done|done|].
    apply (filled_to_eq k); [done|lia]. }
  subst x. change (-1 =? -1) with true. simpl negb. cbv iota zeta.
  rewrite !wrap32_small by (unfold in_int, INT_MIN, INT_MAX; lia).
  assert (exists a m2 b m3,
            fibonacci_memoized lr fuel (if lr then n - 1 else n - 2) memo
            = Done (a, m2)
            /\ fibonacci_memoized lr fuel (if lr then n - 2 else n - 1) m2
               = Done (b, m3)
            /\ length m3 = length memo
            /\ filled_to (Z.to_nat n) m3
            /\ (if lr then a + b else b + a)
               = F (Z.to_nat (n - 1)) + F (Z.to_nat (n - 2)))
    as (a & m2 & b & m3 & Hr2 & Hr3 & Hl3 & Hf3 & Hsum).
  { destruct lr.
    - destruct (IH (n - 1) memo k) as (m2 & Hr2 & Hl2 & Hf2); [lia|lia|lia|done|].
      destruct (IH (n - 2) m2 (Nat.max k (Z.to_nat (n - 1) + 1)))
        as (m3 & Hr3 & Hl3 & Hf3); [lia|lia|lia|done|].
      exists (F (Z.to_nat (n - 1))), m2, (F (Z.to_nat (n - 2))), m3.
      split_and!; [done|done|lia| |done].
      apply (filled_to_eq _ _ _ Hf3). lia.
    - destruct (IH (n - 2) memo k) as (m2 & Hr2 & Hl2 & Hf2); [lia|lia|lia|done|].
      destruct (IH (n - 1) m2 (Nat.max k (Z.to_nat (n - 2) + 1)))
        as (m3 & Hr3 & Hl3 & Hf3); [lia|lia|lia|done|].
      exists (F (Z.to_nat (n - 2))), m2, (F (Z.to_nat (n - 1))), m3.
      split_and!; [done|done|lia| |done].
      apply (filled_to_eq _ _ _ Hf3). lia. }
  rewrite Hr2, obind_Done. cbv beta iota.
  rewrite Hr3, obind_Done. cbv beta iota.
  rewrite Hsum.
  assert (wrap64 (F (Z.to_nat (n - 1)) + F (Z.to_nat (n - 2))) = F (Z.to_nat n))
    as ->.
  { replace (Z.to_nat (n - 1)) with (S (Z.to_nat (n - 2))) by lia.
    replace (Z.to_nat n) with (S (S (Z.to_nat (n - 2)))) by lia.
    rewrite <- F_rec. apply wrap64_small, F_in_llong. lia. }
  rewrite set_index_Done by lia. rewrite obind_Done.
  rewrite (at_index_lookup _ _ (F (Z.to_nat n)))
    by (lia || (apply list_lookup_insert_eq; lia)).
  rewrite obind_Done. eexists. split; [reflexivity|].
  split; [by rewrite length_insert|]. intros i v Hv.
  destruct (decide (i = Z.to_nat n)) as [->|Hne].
  - rewrite list_lookup_insert_eq in Hv by lia. injection Hv as <-.
    case_decide; (done || lia).
  - rewrite list_lookup_insert_ne in Hv by done.
    rewrite (Hf3 i v Hv). repeat case_decide; (done || lia).
Qed.

Lemma tidy_grown n memo : tidy memo -> filled_to (length memo) (grown n memo).
Proof.
  intros Ht i v Hv. apply grown_lookup in Hv as [Hv|[Hnone ->]].
  - by apply Ht.
  - apply lookup_ge_None in Hnone. case_decide; (done || lia).
Qed.

(** One call on a tidy cache. *)
Lemma tidy_call lr fuel n memo :
  0 <= n <= 92 ->
  n < Z.of_nat fuel ->
  tidy memo ->
  exists memo',
    fibonacci_memoized lr fuel n memo = Done (F (Z.to_nat n), memo')
    /\ length memo' = Nat.max (length memo) (Z.to_nat n + 1)
    /\ tidy memo'.
Proof.
  intros Hn Hfuel Ht.
  rewrite fibonacci_memoized_grown by (unfold INT_MAX; lia).
  destruct (fibonacci_memoized_fills lr fuel n (grown n memo) (length memo))
    as (memo' & Hr & Hl & Hf); [done|done| |by apply tidy_grown|].
  { rewrite grown_length. lia. }
  rewrite grown_length in Hl.
  exists memo'. split_and!; [done|lia|].
  apply (filled_to_eq _ _ _ Hf). lia.
Qed.

Lemma reachable_tidy memo :
  reachable_by (fun k => 0 <= k <= 92) memo ->
  tidy memo /\ (length memo <= 93)%nat.
Proof.
  induction 1 as [|lr fuel n memo v memo' _ [IHt IHl] Hn Hcall].
  - split; [|simpl; lia]. intros i v Hv. by rewrite lookup_nil in Hv.
  - destruct (tidy_call lr (S (Z.to_nat n)) n memo)
      as (m' & Hr & Hl & Ht); [done|lia|done|].
    pose proof (fibonacci_memoized_deterministic _ _ _ _ _ _ _ Hcall Hr) as E.
    injection E as _ ->. split; [done|lia].
Qed.

(** X11: in every cache state reached through calls with
    0 <= n <= 92, slots 0 and 1 hold the sentinel -1 (the code never
    writes them) and every slot i >= 2 holds F(i): the cache has no
    gaps, and at most 93 slots. *)
Theorem reachable_cache_contents (memo : list Z) (i : nat) :
  reachable_by (fun k => 0 <= k <= 92) memo ->
  (i < length memo)%nat ->
  memo !! i = Some (if decide (2 <= i)%nat then F i else -1)
  /\ (length memo <= 93)%nat.
Proof.
  intros Hreach Hi. destruct (reachable_tidy memo Hreach) as [Ht Hl].
  split; [|done].
  destruct (lookup_lt_is_Some_2 memo i Hi) as [v Hv].
  rewrite Hv, (Ht i v Hv). repeat case_decide; (done || lia).
Qed.

Lemma reachable_cache_contents_witness :
  [-1; -1; 1; 2; 3; 5] !! 4%nat
  = Some (if decide (2 <= 4)%nat then F 4 else -1).
Proof.
  destruct (reachable_cache_contents [-1; -1; 1; 2; 3; 5] 4) as [H _];
    [|simpl; lia|exact H].
  apply (reachable_call _ true 6 5 [] 5); [apply reachable_start|lia|reflexivity].
Defined.

(** X12: a call whose slot is already in a reachable cache is answered
    from the cache: with 0 <= n < size it returns F(n) without any
    recursive call (fuel 1 is enough) and leaves the cache as it was.
    In particular a call repeated with the same argument writes
    nothing. *)
Theorem fibonacci_memoized_hit lr (n : Z) (memo : list Z) :
  reachable_by (fun k => 0 <= k <= 92) memo ->
  0 <= n < Z.of_nat (length memo) ->
  fibonacci_memoized lr 1 n memo = Done (F (Z.to_nat n), memo).
Proof.
  intros Hreach Hn. destruct (reachable_tidy memo Hreach) as [Ht Hl].
  rewrite fibonacci_memoized_S.
  rewrite to_size_t_nonneg by lia.
  destruct (Z.of_nat (length memo) <=? n) eqn:E; [lia|]. clear E.
  rewrite obind_Done.
  destruct (n <=? 1) eqn:E1.
  { assert (n = 0 \/ n = 1) as [-> | ->] by lia; reflexivity. }
  destruct (lookup_lt_is_Some_2 memo (Z.to_nat n)) as [x Hx]; [lia|].
  rewrite (at_index_lookup _ _ x) by (done || lia). rewrite obind_Done.
  rewrite (Ht _ _ Hx). case_decide; [|lia].
  pose proof (F_not_sentinel (Z.to_nat n)).
  by destruct (F (Z.to_nat n) =? -1) eqn:Ex; [lia|].
Qed.

Lemma fibonacci_memoized_hit_witness :
  fibonacci_memoized true 1 5 [-1; -1; 1; 2; 3; 5]
  = Done (F (Z.to_nat 5), [-1; -1; 1; 2; 3; 5]).
Proof.
  apply (fibonacci_memoized_hit true 5 [-1; -1; 1; 2; 3; 5]); [|simpl; lia].
  apply (reachable_call _ true 6 5 [] 5); [apply reachable_start|lia|reflexivity].
Defined.

(** X13: C++ leaves open which of the two recursive calls of
    [fibonacci_memoized] runs first; from a reachable cache and for
    0 <= n <= 92 both orders return the same value and leave the same
    cache. *)
Theorem fibonacci_memoized_order_independent fuel (n : Z) (memo : list Z) :
  reachable_by (fun k => 0 <= k <= 92) memo ->
  0 <= n <= 92 ->
  n < Z.of_nat fuel ->
  fibonacci_memoized true fuel n memo = fibonacci_memoized false fuel n memo.
Proof.
  intros Hreach Hn Hfuel. destruct (reachable_tidy memo Hreach) as [Ht _].
  destruct (tidy_call true fuel n memo Hn Hfuel Ht) as (m1 & Hr1 & Hl1 & Ht1).
  destruct (tidy_call false fuel n memo Hn Hfuel Ht) as (m2 & Hr2 & Hl2 & Ht2).
  rewrite Hr1, Hr2. do 2 f_equal. apply list_eq. intros i.
  destruct (m1 !! i) as [v1|] eqn:E1, (m2 !! i) as [v2|] eqn:E2.
  - rewrite (Ht1 i v1 E1), (Ht2 i v2 E2), Hl1, Hl2. done.
  - apply lookup_lt_Some in E1. apply lookup_ge_None in E2. lia.
  - apply lookup_ge_None in E1. apply lookup_lt_Some in E2. lia.
  - done.
Qed.

Lemma fibonacci_memoized_order_independent_witness :
  fibonacci_memoized true 13 12 [] = fibonacci_memoized false 13 12 [].
Proof.
  apply (fibonacci_memoized_order_independent 13 12 []);
    [apply reachable_start | lia | lia].
Defined.

(** X14: negative arguments are not rejected.  On a cache of a size a
    vector can have, [fibonacci_memoized(-1)] resizes the cache to zero
    elements and returns -1, and every n <= -2 makes [resize] throw
    (the count n + 1 is converted to an unsigned size above
    [max_size]). *)
Theorem fibonacci_memoized_negative lr fuel (n : Z) (memo : list Z) :
  Z.of_nat (length memo) <= max_size ->
  INT_MIN <= n <= -1 ->
  fibonacci_memoized lr (S fuel) n memo
  = if decide (n = -1) then Done (-1, []) else Throws.
Proof.
  unfold max_size, INT_MIN. intros Hlen Hn.
  rewrite fibonacci_memoized_S.
  assert (to_size_t n = 18446744073709551616 + n) as ->
    by (unfold to_size_t; symmetry; apply (Z.mod_unique_pos _ _ (-1)); lia).
  destruct (Z.of_nat (length memo) <=? 18446744073709551616 + n) eqn:E; [|lia].
  rewrite (wrap32_small (n + 1)) by (unfold in_int, INT_MIN, INT_MAX; lia).
  case_decide as Hd.
  - subst n. reflexivity.
  - unfold resize.
    assert (to_size_t (n + 1) = 18446744073709551616 + (n + 1)) as ->
      by (unfold to_size_t; symmetry; apply (Z.mod_unique_pos _ _ (-1)); lia).
    destruct (max_size <? 18446744073709551616 + (n + 1)) eqn:Em; [done|].
    unfold max_size in Em. lia.
Qed.

Lemma fibonacci_memoized_negative_witness :
  fibonacci_memoized true 1 (-7) [-1; -1; 1; 2] = Throws.
Proof.
  by rewrite (fibonacci_memoized_negative true 0 (-7) [-1; -1; 1; 2])
    by (vm_compute; (discriminate || (split; discriminate))).
Defined.

End FibonacciRange.

(** ** Matrix multiplication and the wrappers at the edges *)

Section Edges.

Lemma to_size_t_negative x :
  -18446744073709551616 <= x < 0 -> to_size_t x = 18446744073709551616 + x.
Proof.
  intros H. unfold to_size_t. symmetry.
  apply (Z.mod_unique_pos _ _ (-1)); lia.
Qed.

Lemma new_vector_negative {A} (count : Z) (x : A) :
  INT_MIN <= count < 0 -> new_vector count x = Throws.
Proof.
  unfold INT_MIN. intros H. unfold new_vector.
  rewrite to_size_t_negative by lia.
  destruct (max_size <? 18446744073709551616 + count) eqn:E; [done|].
  unfold max_size in E. lia.
Qed.

(** X15: a negative size is not rejected by a check: the constructor of
    the first vector receives the size converted to an unsigned count
    above [max_size] and throws, so [matrix_multiplication] throws for
    every negative [int]. *)
Theorem matrix_multiplication_negative (size : Z) :
  INT_MIN <= size < 0 -> matrix_multiplication size = Throws.
Proof.
  intros H. unfold matrix_multiplication, new_matrix.
  by rewrite new_vector_negative.
Qed.

Lemma matrix_multiplication_negative_witness :
  matrix_multiplication (-4) = Throws.
Proof. apply (matrix_multiplication_negative (-4)). by vm_compute. Defined.

(** X16: for every [int] size >= 0 [matrix_multiplication] returns,
    without any access outside its vectors, a matrix of size rows of
    size columns; on a two's-complement target its entry (i, j) is the
    entry of the product A·B reduced to 32 bits. *)
Theorem matrix_multiplication_shape (size : Z) :
  0 <= size <= INT_MAX ->
  exists m,
    matrix_multiplication size = Done m
    /\ length m = Z.to_nat size
    /\ (forall (i : nat) row, m !! i = Some row -> length row = Z.to_nat size)
    /\ forall i j : nat,
        Z.of_nat i < size -> Z.of_nat j < size ->
        entry m i j
        = Some (wrap32 (product_entry size (Z.of_nat i) (Z.of_nat j))).
Proof.
  intros Hsize.
  destruct (matrix_multiplication_wrapped (Z.to_nat size))
    as (m & Hr & [Hl Hrows] & He); [lia|].
  rewrite Z2Nat.id in Hr by lia.
  exists m. split_and!; [done|done|done|]. intros i j Hi Hj.
  rewrite He by lia. rewrite <- product_entry_partial_sum.
  by rewrite Z2Nat.id by lia.
Qed.

Lemma matrix_multiplication_shape_witness :
  exists m,
    matrix_multiplication 2 = Done m
    /\ length m = Z.to_nat 2
    /\ (forall (i : nat) row, m !! i = Some row -> length row = Z.to_nat 2)
    /\ forall i j : nat,
        Z.of_nat i < 2 -> Z.of_nat j < 2 ->
        entry m i j = Some (wrap32 (product_entry 2 (Z.of_nat i) (Z.of_nat j))).
Proof. apply (matrix_multiplication_shape 2). by vm_compute. Defined.

Lemma corner_partial_sum (n : nat) :
  2 * partial_sum 0 0 n = Z.of_nat n * (Z.of_nat n - 1).
Proof.
  induction n as [|n IH]; [done|].
  simpl partial_sum. unfold A, B in *. lia.
Qed.

(** X17: the sample [result[0][0]] that [benchmark_matrix_mult] returns
    is size * (size - 1) / 2, the sum 0 + 1 + ... + (size - 1), for every
    1 <= size <= 65536 and every iterations >= 1. *)
Theorem benchmark_matrix_mult_sample_value (size iterations start stop : Z) :
  1 <= size <= 65536 ->
  1 <= iterations ->
  exists avg,
    benchmark_matrix_mult size iterations start stop
    = Done (size * (size - 1) / 2, avg).
Proof.
  intros Hsize Hit.
  destruct (matrix_multiplication_wrapped (Z.to_nat size))
    as (m & Hr & Hd & He); [unfold INT_MAX; lia|].
  rewrite Z2Nat.id in Hr by lia.
  specialize (He 0%nat 0%nat ltac:(lia) ltac:(lia)).
  change (Z.of_nat 0) with 0 in He.
  pose proof (corner_partial_sum (Z.to_nat size)) as Hc.
  rewrite Z2Nat.id in Hc by lia.
  assert (partial_sum 0 0 (Z.to_nat size) = size * (size - 1) / 2) as Hv.
  { rewrite <- Hc. by rewrite Z.mul_comm, Z.div_mul. }
  assert (0 <= size * (size - 1) <= 65536 * 65535) as Hb by nia.
  rewrite Hv in He. rewrite wrap32_small in He.
  2: { unfold in_int, INT_MIN, INT_MAX.
       pose proof (Z.div_pos (size * (size - 1)) 2 ltac:(lia) ltac:(lia)).
       pose proof (Z.div_le_mono (size * (size - 1)) (65536 * 65535) 2
                     ltac:(lia) ltac:(lia)) as Hle.
       change (65536 * 65535 / 2) with 2147450880 in Hle. lia. }
  apply get2_entry in He. change (Z.of_nat 0) with 0 in He.
  unfold benchmark_matrix_mult. rewrite Hr.
  rewrite for_eachM_overwrite by by apply iterations_nonempty.
  rewrite obind_Done, avg_time_defined by lia.
  rewrite obind_Done, He, obind_Done. by eexists.
Qed.

Lemma benchmark_matrix_mult_sample_value_witness :
  exists avg,
    benchmark_matrix_mult 100 3 0 1000 = Done (100 * (100 - 1) / 2, avg).
Proof. apply (benchmark_matrix_mult_sample_value 100 3 0 1000); lia. Defined.

(** X18: [benchmark_matrix_mult] reads [result[0][0]] whatever the
    matrix: with size = 0, or with iterations <= 0 (the matrix is never
    computed), the vector is empty and the call is undefined; with a
    negative size and iterations >= 1 the kernel throws. *)
Theorem benchmark_matrix_mult_edges (size iterations start stop : Z) :
  (iterations <= 0 \/ size = 0 ->
   benchmark_matrix_mult size iterations start stop = Undef)
  /\ (INT_MIN <= size < 0 -> 1 <= iterations ->
      benchmark_matrix_mult size iterations start stop = Throws).
Proof.
  split.
  - intros H. unfold benchmark_matrix_mult.
    destruct (Z_le_gt_dec iterations 0) as [Hle|Hgt].
    + rewrite indices_nil by lia. simpl for_eachM. rewrite obind_Done.
      destruct (decide (iterations = 0)) as [->|Hne]; [done|].
      by rewrite avg_time_defined by done.
    + destruct H as [H| ->]; [lia|].
      change (matrix_multiplication 0) with (Done (@nil (list Z))).
      rewrite for_eachM_overwrite by (apply iterations_nonempty; lia).
      rewrite obind_Done. by rewrite avg_time_defined by lia.
  - intros Hsize Hit. unfold benchmark_matrix_mult.
    unfold matrix_multiplication, new_matrix.
    rewrite new_vector_negative by done.
    by rewrite indices_cons by lia.
Qed.

Lemma benchmark_matrix_mult_edges_witness :
  benchmark_matrix_mult 0 4 0 1000 = Undef
  /\ benchmark_matrix_mult (-3) 4 0 1000 = Throws.
Proof.
  destruct (benchmark_matrix_mult_edges 0 4 0 1000) as [H1 _].
  destruct (benchmark_matrix_mult_edges (-3) 4 0 1000) as [_ H2].
  split; [apply H1; by right|apply H2; by vm_compute].
Defined.

(** X19: with a negative iteration count the loops of the three scalar
    wrappers do not run: the kernel is never called, the result is the
    initial 0 whatever the argument, and the elapsed time is divided by
    a negative number. *)
Theorem benchmark_negative_iterations (arg iterations start stop : Z) :
  iterations < 0 ->
  let avg := Qdiv (inject_Z (stop - start))
                  (inject_Z (1000000000 * iterations)) in
  benchmark_sum_of_squares arg iterations start stop = Done (0, avg)
  /\ benchmark_prime_count arg iterations start stop = Done (0, avg)
  /\ benchmark_fibonacci arg iterations start stop = Done (0, avg).
Proof.
  intros Hit avg. subst avg.
  unfold benchmark_sum_of_squares, benchmark_prime_count, benchmark_fibonacci.
  rewrite indices_nil by lia. rewrite !avg_time_defined by lia.
  split_and!; reflexivity.
Qed.

Lemma benchmark_negative_iterations_witness :
  benchmark_sum_of_squares 100 (-2) 0 1000
  = Done (0, Qdiv (inject_Z (1000 - 0)) (inject_Z (1000000000 * -2))).
Proof.
  destruct (benchmark_negative_iterations 100 (-2) 0 1000) as [H _];
    [lia|exact H].
Defined.



End Edges.
